(** * Undo / redo history of the rbfx editor toolbox

    A shallow embedding of the undo subsystem declared in the toolbox
    header (UndoAction, the concrete undo actions, UndoStack,
    UndoValueScope, UndoTrackGuard, GetUIElementPath and
    GetUIElementByPath), together with the properties the design
    document states about it.

    Conventions.
    - C++ member functions that mutate [*this] or the scene become
      functions that take the old state and return the new one.
    - [unsigned] values are [N], the [int] cursor [index_] is [Z].
    - A [WeakPtr] that expired, and a raw pointer that is null, are [None].
    - The context pointer every action receives carries no state
      of its own here; the program state the actions act upon is the
      [World]. *)

From Stdlib Require Import ZArith Lia.
From stdpp Require Import base option list gmap strings.

Local Open Scope Z_scope.

(** ** Undo actions *)

Section Actions.
Context {World : Type}.

(** [class UndoAction]: the two replay directions report whether the
    target was still alive; [OnModified] is the hook "called when
    Undo() or Redo() execute successfully and return true". *)
Record UndoAction := {
  Undo : World -> bool * World;
  Redo : World -> bool * World;
  OnModified : World -> World
}.

(** [StateCollection = ea::vector<SharedPtr<UndoAction>>]. *)
Definition StateCollection := list UndoAction.

Context {Value : Type}.

(** [Setter] is a callback taking the context and a value and
    returning [bool]; [Modified] is a callback taking the context
    only. An empty [ea::function] is [None]. *)
Definition Setter := Value -> World -> bool * World.
Definition Modified := World -> World.

(** [template<typename Value> class UndoCustomAction]. *)
Record UndoCustomAction := {
  initial_ : Value;
  current_ : Value;
  modified_ : bool;
  onUndo_ : Setter;
  onRedo_ : option Setter;
  onModified_ : option Modified
}.

(** The constructor [UndoCustomAction(value, onUndo, onRedo, onModified)]
    that [ValueCache::Get<T>(hash, current, args...)] runs for a new
    entry: both values start as [value]. *)
Definition UndoCustomAction_new (value : Value) (onUndo : Setter)
    (onRedo : option Setter) (onModified : option Modified) : UndoCustomAction :=
  {| initial_ := value; current_ := value; modified_ := false;
     onUndo_ := onUndo; onRedo_ := onRedo; onModified_ := onModified |}.

Definition UndoCustomAction_Undo (a : UndoCustomAction) (w : World) : bool * World :=
  onUndo_ a (initial_ a) w.

Definition UndoCustomAction_Redo (a : UndoCustomAction) (w : World) : bool * World :=
  match onRedo_ a with
  | Some onRedo => onRedo (current_ a) w
  | None => onUndo_ a (current_ a) w
  end.

Definition UndoCustomAction_OnModified (a : UndoCustomAction) (w : World) : World :=
  match onModified_ a with
  | Some f => f w
  | None => w
  end.

(** The upcast [T* -> UndoAction*] taken when an action enters a
    [StateCollection]. *)
Definition as_action (a : UndoCustomAction) : UndoAction :=
  {| Undo := UndoCustomAction_Undo a;
     Redo := UndoCustomAction_Redo a;
     OnModified := UndoCustomAction_OnModified a |}.

Definition set_current (v : Value) (a : UndoCustomAction) : UndoCustomAction :=
  {| initial_ := initial_ a; current_ := v; modified_ := modified_ a;
     onUndo_ := onUndo_ a; onRedo_ := onRedo_ a; onModified_ := onModified_ a |}.

Definition set_initial (v : Value) (a : UndoCustomAction) : UndoCustomAction :=
  {| initial_ := v; current_ := current_ a; modified_ := modified_ a;
     onUndo_ := onUndo_ a; onRedo_ := onRedo_ a; onModified_ := onModified_ a |}.

Definition or_modified (m : bool) (a : UndoCustomAction) : UndoCustomAction :=
  {| initial_ := initial_ a; current_ := current_ a; modified_ := modified_ a || m;
     onUndo_ := onUndo_ a; onRedo_ := onRedo_ a; onModified_ := onModified_ a |}.

(** ** The undo stack *)

(** [class UndoStack]: the five data members, in declaration order.
    [workingValueCache_] maps a widget hash to the action that is
    still being edited. [index_] is an [int] that never leaves the
    range from 0 to the number of groups (see [cursor_ok]), so it is an
    integer without wrap-around here. *)
Record UndoStack := {
  stack_ : list StateCollection;
  index_ : Z;
  trackingEnabled_ : bool;
  currentFrameActions_ : StateCollection;
  workingValueCache_ : gmap N UndoCustomAction
}.

(** The member initialisers: [index_ = 0], [trackingEnabled_ = true],
    everything else empty. *)
Definition UndoStack_new : UndoStack :=
  {| stack_ := []; index_ := 0; trackingEnabled_ := true;
     currentFrameActions_ := []; workingValueCache_ := ∅ |}.

Definition SetTrackingEnabled (enabled : bool) (s : UndoStack) : UndoStack :=
  {| stack_ := stack_ s; index_ := index_ s; trackingEnabled_ := enabled;
     currentFrameActions_ := currentFrameActions_ s;
     workingValueCache_ := workingValueCache_ s |}.

Definition IsTrackingEnabled (s : UndoStack) : bool := trackingEnabled_ s.

Definition Index (s : UndoStack) : Z := index_ s.

Definition set_frame (f : StateCollection) (s : UndoStack) : UndoStack :=
  {| stack_ := stack_ s; index_ := index_ s; trackingEnabled_ := trackingEnabled_ s;
     currentFrameActions_ := f; workingValueCache_ := workingValueCache_ s |}.

Definition set_cache (c : gmap N UndoCustomAction) (s : UndoStack) : UndoStack :=
  {| stack_ := stack_ s; index_ := index_ s; trackingEnabled_ := trackingEnabled_ s;
     currentFrameActions_ := currentFrameActions_ s; workingValueCache_ := c |}.

(** [UndoAction* Add(UndoAction* action)]: pushes onto the actions
    of the current frame and hands the pointer back. *)
Definition Add (action : UndoAction) (s : UndoStack) : UndoAction * UndoStack :=
  (action, set_frame (currentFrameActions_ s ++ [action]) s).

(** ** The tracking guard *)

(** [class UndoTrackGuard]: [stack_] is the guarded stack (threaded
    through explicitly here), [tracking_] the flag found at
    construction. *)
Record UndoTrackGuard := { tracking_ : bool }.

(** Constructor: remember the flag, then [SetTrackingEnabled(track)]. *)
Definition UndoTrackGuard_new (s : UndoStack) (track : bool) : UndoTrackGuard * UndoStack :=
  ({| tracking_ := IsTrackingEnabled s |}, SetTrackingEnabled track s).

(** Destructor: [stack_.SetTrackingEnabled(tracking_)]. *)
Definition UndoTrackGuard_delete (g : UndoTrackGuard) (s : UndoStack) : UndoStack :=
  SetTrackingEnabled (tracking_ g) s.

(** ** Continuous edits: the value cache and the value scope *)

(** Modelled from the spec: [ValueCache] (the undo header includes
    its header; its code is elsewhere in the engine). The design document
    describes it as a mapping from a stable widget identity to the
    in-flight tracker state, whose entries are created lazily and
    evicted once promoted. [Get<T>(hash, args...)] returns the entry
    under [hash], constructing [T(args...)] first when there is none. *)
Definition ValueCache_Get (hash : N) (fresh : UndoCustomAction)
    (c : gmap N UndoCustomAction) : UndoCustomAction * gmap N UndoCustomAction :=
  match c !! hash with
  | Some a => (a, c)
  | None => (fresh, <[hash := fresh]> c)
  end.

(** Modelled from the spec: [ValueCache::Detach<T>(hash)] takes the
    entry under [hash] out of the cache and hands it to the caller. *)
Definition ValueCache_Detach (hash : N) (c : gmap N UndoCustomAction)
    : option UndoCustomAction * gmap N UndoCustomAction :=
  (c !! hash, delete hash c).

(** [template<typename T> class UndoValueScope]. [stack_] and
    [action_] are pointers; what matters of them is whether they are
    null, because a non-null [action_] is always the cache entry
    under [hash_] of the stack that built the scope. The reference
    [value_] aliases [action_->current_]. *)
Record UndoValueScope := {
  scope_stack_ : bool;
  hash_ : N;
  action_ : bool
}.

(** [UndoStack::Track<T>(current, args...)]. [hash] is what
    [ui::GetCurrentWindow()->IDStack.back()] returns. *)
Definition Track (hash : N) (current : Value) (onUndo : Setter)
    (onRedo : option Setter) (onModified : option Modified)
    (s : UndoStack) : UndoValueScope * UndoStack :=
  if negb (trackingEnabled_ s) then
    ({| scope_stack_ := false; hash_ := 0%N; action_ := false |}, s)
  else
    let '(action, cache) :=
      ValueCache_Get hash (UndoCustomAction_new current onUndo onRedo onModified)
                     (workingValueCache_ s) in
    ({| scope_stack_ := true; hash_ := hash; action_ := true |},
     set_cache (<[hash := set_current current action]> cache) s).

(** The constructor binds the reference [value_] to
    [action->current_] even for a null [action], which is what [Track]
    passes while tracking is off. A read through that reference, as a
    control makes to show the value, is then a read through a null
    pointer, with no defined result ([None]). *)
Definition UndoValueScope_load (sc : UndoValueScope) (s : UndoStack) : option Value :=
  if action_ sc then current_ <$> workingValueCache_ s !! hash_ sc
  else None.

(** A store through the reference [value_], as the control makes
    while it is dragged; through the reference of a null [action] it
    is a write through a null pointer, with no defined result. *)
Definition UndoValueScope_store (sc : UndoValueScope) (v : Value) (s : UndoStack)
    : option UndoStack :=
  if action_ sc then
    Some (set_cache (alter (set_current v) (hash_ sc) (workingValueCache_ s)) s)
  else None.

(** [void SetModified(bool modified)]. *)
Definition SetModified (sc : UndoValueScope) (modified : bool) (s : UndoStack) : UndoStack :=
  if action_ sc then set_cache (alter (or_modified modified) (hash_ sc) (workingValueCache_ s)) s
  else s.

(** The destructor of [UndoValueScope]. [any_item_active] is what
    [ui::IsAnyItemActive()] returns. *)
Definition UndoValueScope_delete `{EqDecision Value} (sc : UndoValueScope)
    (any_item_active : bool) (s : UndoStack) (w : World) : UndoStack * World :=
  if negb (scope_stack_ sc) || negb (action_ sc) then (s, w)
  else
    match workingValueCache_ s !! hash_ sc with
    | None => (s, w)
    | Some a =>
      if decide (initial_ a = current_ a) then (s, w)
      else
        let w' := snd (UndoCustomAction_Redo a w) in
        if negb any_item_active then
          if modified_ a then
            match ValueCache_Detach (hash_ sc) (workingValueCache_ s) with
            | (Some actionPtr, cache) =>
                (set_frame (currentFrameActions_ s ++ [as_action actionPtr])
                           (set_cache cache s), w')
            | (None, cache) => (set_cache cache s, w')
            end
          else
            (set_cache (<[hash_ sc := set_initial (current_ a) a]> (workingValueCache_ s)) s, w')
        else (s, w')
    end.

(** One pass of a widget over its value, following the usage the
    header documents for [Track]:
    [if (auto value = undo.Track<T>(current, ...)) control(&value.value_)].
    The control reads the value through the reference it is given and
    may store a new value through it ([pass_edit]); the caller may
    report the change with [SetModified]; the scope dies at the end of
    the pass. The pass has no result ([None]) when the read or the
    store has none. *)
Record Pass := {
  pass_current : Value;
  pass_edit : option Value;
  pass_modified : bool;
  pass_active : bool
}.

Definition run_pass `{EqDecision Value} (hash : N) (onUndo : Setter)
    (onRedo : option Setter) (onModified : option Modified)
    (p : Pass) (sw : UndoStack * World) : option (UndoStack * World) :=
  let '(sc, s1) := Track hash (pass_current p) onUndo onRedo onModified (fst sw) in
  _ ← UndoValueScope_load sc s1;
  s2 ← match pass_edit p with
       | Some v => UndoValueScope_store sc v s1
       | None => Some s1
       end;
  let s3 := SetModified sc (pass_modified p) s2 in
  Some (UndoValueScope_delete sc (pass_active p) s3 (snd sw)).

Definition run_passes `{EqDecision Value} (hash : N) (onUndo : Setter)
    (onRedo : option Setter) (onModified : option Modified)
    (ps : list Pass) (sw : UndoStack * World) : option (UndoStack * World) :=
  foldl (fun acc p => acc ≫= run_pass hash onUndo onRedo onModified p) (Some sw) ps.

(** The value the widget leaves in [current_] at the end of a pass. *)
Definition pass_value (p : Pass) : Value :=
  match pass_edit p with
  | Some v => v
  | None => pass_current p
  end.

(** The cache entry a pass leaves under its hash before its scope
    dies, when [e] is what the cache held under that hash before. *)
Definition pass_entry (onUndo : Setter) (onRedo : option Setter)
    (onModified : option Modified) (p : Pass) (e : option UndoCustomAction)
    : UndoCustomAction :=
  or_modified (pass_modified p)
    (set_current (pass_value p)
       (default (UndoCustomAction_new (pass_current p) onUndo onRedo onModified) e)).

(** The entry under the hash after a run of passes that keep it. *)
Fixpoint entry_after (onUndo : Setter) (onRedo : option Setter)
    (onModified : option Modified) (ps : list Pass) (e : option UndoCustomAction)
    : option UndoCustomAction :=
  match ps with
  | [] => e
  | p :: ps' =>
      entry_after onUndo onRedo onModified ps'
        (Some (pass_entry onUndo onRedo onModified p e))
  end.

(** ** Replaying groups *)

(** What a replay did, in the order it did it. The number is the
    insertion position of the command inside its group; the flag is
    what the command returned. *)
Inductive Event :=
| EvUndo (i : nat) (ok : bool)
| EvRedo (i : nat) (ok : bool)
| EvModified (i : nat).

(** Modelled from the spec: the body of [UndoStack::Undo] (only its
    declaration is in the header). Apply-Inverse runs on every command
    of the group in reverse insertion order; a command that fails does
    not stop the others. [i] is the insertion position of the head of
    [g]. The flags come back in insertion order. *)
Fixpoint apply_inverse (i : nat) (g : StateCollection) (w : World)
    : list bool * list Event * World :=
  match g with
  | [] => ([], [], w)
  | a :: rest =>
      let '(oks, evs, w1) := apply_inverse (S i) rest w in
      let '(ok, w2) := Undo a w1 in
      (ok :: oks, evs ++ [EvUndo i ok], w2)
  end.

(** Modelled from the spec: the body of [UndoStack::Redo].
    Apply-Forward runs on every command of the group in insertion
    order. *)
Fixpoint apply_forward (i : nat) (g : StateCollection) (w : World)
    : list bool * list Event * World :=
  match g with
  | [] => ([], [], w)
  | a :: rest =>
      let '(ok, w1) := Redo a w in
      let '(oks, evs, w2) := apply_forward (S i) rest w1 in
      (ok :: oks, EvRedo i ok :: evs, w2)
  end.

(** Modelled from the spec: the hooks fire after all commands of the
    group ran, in insertion order. The header documents [OnModified] as
    called for the commands that executed successfully and returned
    true, so the commands that failed are skipped. *)
Fixpoint fire_modified (i : nat) (g : StateCollection) (oks : list bool) (w : World)
    : list Event * World :=
  match g, oks with
  | a :: rest, ok :: oks' =>
      if (ok : bool) then
        let '(evs, w') := fire_modified (S i) rest oks' (OnModified a w) in
        (EvModified i :: evs, w')
      else fire_modified (S i) rest oks' w
  | _, _ => ([], w)
  end.

(** What a call hands back to its caller. *)
Inductive Returned :=
| ReturnsVoid
| ReturnsBool (b : bool).

(** The outcome of one call of Undo or Redo on the history. The
    header declares both member functions [void], so [returned] is
    [ReturnsVoid]. [worked] is the boolean the design document speaks
    of: whether there was a group to replay. No caller of the C++
    class sees it. *)
Record Step := {
  returned : Returned;
  worked : bool;
  trace : list Event;
  stack : UndoStack;
  world : World
}.

Definition set_index (i : Z) (s : UndoStack) : UndoStack :=
  {| stack_ := stack_ s; index_ := i; trackingEnabled_ := trackingEnabled_ s;
     currentFrameActions_ := currentFrameActions_ s;
     workingValueCache_ := workingValueCache_ s |}.

(** The group under cursor position [i]; no group when [i] is not a
    position of [stack_]. *)
Definition group_at (s : UndoStack) (i : Z) : StateCollection :=
  if decide (0 <= i) then default [] (stack_ s !! Z.to_nat i) else [].

(** Modelled from the spec: [UndoStack::Undo]. Nothing to do at
    cursor 0; otherwise the cursor is decremented, the group at the new
    cursor is replayed backwards, the hooks fire, and the group counts
    as processed whatever the commands reported. *)
Definition UndoStack_Undo (s : UndoStack) (w : World) : Step :=
  if decide (index_ s = 0) then
    {| returned := ReturnsVoid; worked := false; trace := []; stack := s; world := w |}
  else
    let s' := set_index (index_ s - 1) s in
    let g := group_at s' (index_ s') in
    let '(oks, evs, w1) := apply_inverse 0 g w in
    let '(hooks, w2) := fire_modified 0 g oks w1 in
    {| returned := ReturnsVoid; worked := true; trace := evs ++ hooks; stack := s'; world := w2 |}.

(** Modelled from the spec: [UndoStack::Redo]. Nothing to do when the
    cursor is at the end; otherwise the group at the cursor is replayed
    forwards, the cursor is incremented and the hooks fire. *)
Definition UndoStack_Redo (s : UndoStack) (w : World) : Step :=
  if decide (index_ s = Z.of_nat (length (stack_ s))) then
    {| returned := ReturnsVoid; worked := false; trace := []; stack := s; world := w |}
  else
    let g := group_at s (index_ s) in
    let '(oks, evs, w1) := apply_forward 0 g w in
    let s' := set_index (index_ s + 1) s in
    let '(hooks, w2) := fire_modified 0 g oks w1 in
    {| returned := ReturnsVoid; worked := true; trace := evs ++ hooks; stack := s'; world := w2 |}.

(** Modelled from the spec: Record. The header has no member of that
    name: [Add] collects the actions of a frame and the code that seals
    them into a group is not in the header. The design document
    describes the sealing: the groups at and after the cursor are
    dropped, the new group is appended, the cursor advances; nothing
    happens while tracking is off. The handle it returns is the group
    it was given. *)
Definition UndoStack_Record (commands : StateCollection) (s : UndoStack)
    : StateCollection * UndoStack :=
  if trackingEnabled_ s then
    (commands,
     {| stack_ := take (Z.to_nat (index_ s)) (stack_ s) ++ [commands];
        index_ := index_ s + 1;
        trackingEnabled_ := trackingEnabled_ s;
        currentFrameActions_ := currentFrameActions_ s;
        workingValueCache_ := workingValueCache_ s |})
  else (commands, s).

(** Modelled from the spec: [UndoStack::Clear] resets the cursor and
    discards all groups. *)
Definition UndoStack_Clear (s : UndoStack) : UndoStack :=
  {| stack_ := []; index_ := 0; trackingEnabled_ := trackingEnabled_ s;
     currentFrameActions_ := currentFrameActions_ s;
     workingValueCache_ := workingValueCache_ s |}.

(** The invariant of the history: [0 <= index_ <= stack_.size()]. *)
Definition cursor_ok (s : UndoStack) : Prop :=
  0 <= index_ s <= Z.of_nat (length (stack_ s)).

(** The calls a client can make on the history. *)
Inductive Call :=
| CallRecord (commands : StateCollection)
| CallUndo
| CallRedo
| CallClear
| CallSetTrackingEnabled (enabled : bool)
| CallAdd (action : UndoAction).

Definition run_call (c : Call) (sw : UndoStack * World) : UndoStack * World :=
  match c with
  | CallRecord commands => (snd (UndoStack_Record commands (fst sw)), snd sw)
  | CallUndo => let r := UndoStack_Undo (fst sw) (snd sw) in (stack r, world r)
  | CallRedo => let r := UndoStack_Redo (fst sw) (snd sw) in (stack r, world r)
  | CallClear => (UndoStack_Clear (fst sw), snd sw)
  | CallSetTrackingEnabled enabled => (SetTrackingEnabled enabled (fst sw), snd sw)
  | CallAdd action => (snd (Add action (fst sw)), snd sw)
  end.

Definition run_calls (cs : list Call) (sw : UndoStack * World) : UndoStack * World :=
  foldl (fun acc c => run_call c acc) sw cs.

(** The edit the commands of a group stand for: their forward
    operations in insertion order. *)
Definition group_forward (g : StateCollection) (w : World) : World :=
  foldl (fun acc a => snd (Redo a acc)) w g.

(** An edit step of the owner of the document: the document changes
    as the group describes and the group is recorded. *)
Definition edit_and_record (g : StateCollection) (sw : UndoStack * World)
    : UndoStack * World :=
  (snd (UndoStack_Record g (fst sw)), group_forward g (snd sw)).

(** What one Undo call does to the document when [g] is the group
    under the cursor. *)
Definition group_undo (g : StateCollection) (w : World) : World :=
  let '(oks, _, w1) := apply_inverse 0 g w in
  snd (fire_modified 0 g oks w1).

Definition undo_times (n : nat) (sw : UndoStack * World) : UndoStack * World :=
  Nat.iter n (run_call CallUndo) sw.

Definition edit_steps (gs : list StateCollection) (sw : UndoStack * World)
    : UndoStack * World :=
  foldl (fun acc g => edit_and_record g acc) sw gs.

(** The document after the edits of [gs], one after the other. *)
Definition forward_all (gs : list StateCollection) (w : World) : World :=
  foldl (fun acc g => group_forward g acc) w gs.

(** Every command of [g] is a reversible edit where it is applied:
    its inverse, run on the document its forward operation left, gives
    back the document the forward operation started from. The
    documents are the ones the group goes through when it runs forward
    from [w]. *)
Fixpoint commands_reversible (g : StateCollection) (w : World) : Prop :=
  match g with
  | [] => True
  | a :: rest =>
      snd (Undo a (snd (Redo a w))) = w /\
      commands_reversible rest (snd (Redo a w))
  end.

(** The hooks of the commands of [g] leave the document [w] alone. *)
Definition hooks_keep (g : StateCollection) (w : World) : Prop :=
  Forall (fun a => OnModified a w = w) g.

(** The same for every group of [gs], each at the document its edit
    starts from when the edits are made one after the other from [w]. *)
Fixpoint edits_reversible (gs : list StateCollection) (w : World) : Prop :=
  match gs with
  | [] => True
  | g :: rest =>
      commands_reversible g w /\ hooks_keep g w /\
      edits_reversible rest (group_forward g w)
  end.

(** One Undo call per group takes the edits of [gs] back one by one. *)
Fixpoint groups_unwind (gs : list StateCollection) (w : World) : Prop :=
  match gs with
  | [] => True
  | g :: rest =>
      group_undo g (group_forward g w) = w /\
      groups_unwind rest (group_forward g w)
  end.

End Actions.

Arguments UndoAction : clear implicits.
Arguments StateCollection : clear implicits.
Arguments UndoCustomAction : clear implicits.
Arguments UndoStack : clear implicits.
Arguments Setter : clear implicits.
Arguments Modified : clear implicits.

(** ** UI elements and element paths *)

(** [M_MAX_UNSIGNED], the value [FindChild] returns for "not found"
    (the constant lives in the math header; it is 0xffffffff). *)
Definition M_MAX_UNSIGNED : N := 4294967295%N.

Section UITree.
Context {Data : Type}.

(** [class UIElement], as far as the path functions look at it: the
    raw parent pointer, the vector of shared pointers to the children,
    and everything else ([Data]). Elements live in a heap; a pointer to
    an element is its address. *)
Record UIElement := {
  parent_ : option N;
  children_ : list N;
  data_ : Data
}.

(** [UIElementPath = ea::vector<unsigned>]. *)
Definition UIElementPath := list N.

Definition GetParent (h : gmap N UIElement) (el : N) : option N :=
  h !! el ≫= parent_.

Definition GetChildren (h : gmap N UIElement) (el : N) : list N :=
  default [] (children_ <$> h !! el).

(** Position of the first occurrence of [el] in a vector of pointers. *)
Fixpoint index_of (el : N) (l : list N) : option nat :=
  match l with
  | [] => None
  | c :: rest => if decide (c = el) then Some 0%nat else S <$> index_of el rest
  end.

(** Modelled from the spec: [UIElement::FindChild] is engine code that
    is not part of the header. It returns the index of the child in
    [children_], and [M_MAX_UNSIGNED] when the element is not a child
    (the value the assertion in [GetUIElementPath] tests for). *)
Definition FindChild (h : gmap N UIElement) (parent el : N) : N :=
  match index_of el (GetChildren h parent) with
  | Some i => N.of_nat i
  | None => M_MAX_UNSIGNED
  end.

(** The second loop of [GetUIElementPath]: walk up through the
    parents and push the index of each element in its parent, leaf
    first. [None] when the function does not return a path: the
    assertion fails, a pointer is followed that is no element of the
    heap, or the walk is not over after [fuel] elements. (The first
    loop walks the same chain only to count it for [reserve].) *)
Fixpoint path_to_root (fuel : nat) (h : gmap N UIElement) (el : N) : option UIElementPath :=
  match fuel with
  | O => None
  | S fuel' =>
      match h !! el with
      | None => None
      | Some e =>
          match parent_ e with
          | None => Some []
          | Some parent =>
              let index := FindChild h parent el in
              if decide (index = M_MAX_UNSIGNED) then None
              else (fun path => index :: path) <$> path_to_root fuel' h parent
          end
      end
  end.

(** [GetUIElementPath(element)]: the pushed indices, reversed. *)
Definition GetUIElementPath (fuel : nat) (h : gmap N UIElement) (element : N)
    : option UIElementPath :=
  reverse <$> path_to_root fuel h element.

(** What [GetUIElementByPath] comes back with. [OutOfBounds] stands
    for a read of [children[index]] past the end of the vector and
    [Dangling] for a call on a pointer that is no element of the heap;
    the C++ function has no defined result in either case. *)
Inductive Resolved :=
| Element (el : N)
| Null
| OutOfBounds
| Dangling.

(** [GetUIElementByPath(el, path)]. *)
Fixpoint GetUIElementByPath (h : gmap N UIElement) (el : N) (path : UIElementPath)
    : Resolved :=
  match path with
  | [] => Element el
  | index :: rest =>
      match h !! el with
      | None => Dangling
      | Some e =>
          let children := children_ e in
          if decide (N.of_nat (length children) <= index)%N then Null
          else
            match children !! N.to_nat index with
            | Some child => GetUIElementByPath h child rest
            | None => OutOfBounds
            end
      end
  end.

(** The pointer a caller of [GetUIElementByPath] tests against null. *)
Definition resolved_ptr (r : Resolved) : option N :=
  match r with
  | Element el => Some el
  | _ => None
  end.

(** The children vectors and the parent pointers agree, and no
    vector is so long that an index could be mistaken for
    [M_MAX_UNSIGNED]. *)
Definition linked_element (h : gmap N UIElement) (a : N) (e : UIElement) : Prop :=
  Forall (fun c => parent_ <$> h !! c = Some (Some a)) (children_ e) /\
  (N.of_nat (length (children_ e)) <= M_MAX_UNSIGNED)%N.

Definition tree_linked (h : gmap N UIElement) : Prop :=
  map_Forall (linked_element h) h.

#[global] Instance linked_element_dec (h : gmap N UIElement) (a : N) (e : UIElement)
  : Decision (linked_element h a e).
Proof. unfold linked_element. apply _. Defined.

#[global] Instance tree_linked_dec (h : gmap N UIElement) : Decision (tree_linked h).
Proof. unfold tree_linked. apply _. Defined.

(** [root] is an element without a parent. *)
Definition is_root (h : gmap N UIElement) (root : N) : Prop :=
  parent_ <$> h !! root = Some None.

End UITree.

Arguments UIElement : clear implicits.

(** ** The document and the engine *)

(** [enum CreateMode]. *)
Inductive CreateMode :=
| REPLICATED
| LOCAL.

(** The parts of the scene and UI engine the undo actions call. Their
    code is not part of the header, so the actions are embedded over
    any implementation of them. A [Node] or [Component] is a non-null
    pointer into the scene; a member function that changes the scene
    graph takes the scene and returns the new one. *)
Class Engine := {
  Scene : Type;
  Node : Type;
  Component : Type;
  Serializable : Type;
  VectorBuffer : Type;
  StringHash : Type;
  Variant : Type;
  XMLFile : Type;
  ElementData : Type;
  (** The serializables that are part of neither the scene nor the UI
      tree. *)
  Objects : Type;
  FIRST_LOCAL_ID : N;
  sizeof_StringHash : N;
  (** [buffer.Seek(pos); buffer.ReadUInt()] and [ReadStringHash()]. *)
  ReadUInt : VectorBuffer -> N -> N;
  ReadStringHash : VectorBuffer -> N -> StringHash;
  Scene_GetNode : Scene -> N -> option Node;
  Scene_GetComponent : Scene -> N -> option Component;
  Node_RemoveChild : Node -> Node -> Scene -> Scene;
  (** [parent->CreateChild(EMPTY_STRING, mode, id)]. *)
  Node_CreateChild : Node -> CreateMode -> N -> Scene -> Node * Scene;
  Node_Load : Node -> VectorBuffer -> Scene -> Scene;
  (** [new Node], [SetID(id)] and [parent->AddChild(node, index)]. *)
  Node_AddNewChild : Node -> N -> N -> Scene -> Node * Scene;
  Node_SetParent : Node -> Node -> Scene -> Scene;
  Node_RemoveComponent : Node -> Component -> Scene -> Scene;
  Node_CreateComponent : Node -> StringHash -> CreateMode -> N -> Scene -> Component * Scene;
  Component_Load : Component -> VectorBuffer -> Scene -> bool * Scene;
  Component_ApplyAttributes : Component -> Scene -> Scene;
  (** [SetAttribute(name, value)] followed by [ApplyAttributes()], on
      a target whose type is exactly [Node], [Component] or
      [UIElement]. *)
  Node_SetAttribute : Node -> string -> Variant -> Scene -> Scene;
  Component_SetAttribute : Component -> string -> Variant -> Scene -> Scene;
  UIElement_SetAttribute :
    N -> string -> Variant -> gmap N (UIElement ElementData) -> gmap N (UIElement ElementData);
  (** The same two calls through a [Serializable*] to an object of any
      other class. The object may be a node or component of the scene
      (of a derived class), a widget of the UI tree, or part of neither,
      so the calls may change any of the three. *)
  Serializable_SetAttribute :
    Serializable -> string -> Variant ->
    option Scene * gmap N (UIElement ElementData) * Objects ->
    option Scene * gmap N (UIElement ElementData) * Objects;
  UIElement_RemoveChild :
    N -> N -> gmap N (UIElement ElementData) -> gmap N (UIElement ElementData);
  (** [parent->LoadChildXML(elementData.GetRoot(), styleFile)]. *)
  UIElement_LoadChildXML :
    N -> XMLFile -> option XMLFile ->
    gmap N (UIElement ElementData) -> gmap N (UIElement ElementData);
  (** [element->SetParent(parent, index)]; without an index the
      element goes to the end. *)
  UIElement_SetParent :
    N -> N -> option N -> gmap N (UIElement ElementData) -> gmap N (UIElement ElementData);
  (** [data.GetRoot().SetAttribute("style", style)]. *)
  XMLFile_SetStyle : XMLFile -> string -> XMLFile;
  UIElement_SetInstanceDefault :
    N -> string -> Variant -> gmap N (UIElement ElementData) -> gmap N (UIElement ElementData);
  (** Empty the root of the default style of the element and append
      copies of the children of the root of the given style. *)
  UIElement_ReplaceDefaultStyle :
    N -> XMLFile -> gmap N (UIElement ElementData) -> gmap N (UIElement ElementData)
}.

Section Commands.
Context `{Engine}.

(** The document the actions work on, seen through the weak pointers
    they keep: the scene ([WeakPtr<Scene> scene_], [None] once
    expired), the UI heap with its root ([WeakPtr<UIElement> root_]),
    and the pointer [WeakPtr<Serializable> target_] of an attribute
    edit ([None] once expired). The constructor of the attribute edit
    sets [target_] for every target, so the object it points to may
    well be a part of the scene or of the UI tree; [objects_] is the
    state of the serializables that are part of neither. *)
Record Document := {
  scene_ : option Scene;
  ui_ : gmap N (UIElement ElementData);
  root_ : option N;
  target_ : option Serializable;
  objects_ : Objects
}.

Definition set_scene (sc : Scene) (d : Document) : Document :=
  {| scene_ := Some sc; ui_ := ui_ d; root_ := root_ d; target_ := target_ d;
     objects_ := objects_ d |}.

Definition set_ui (h : gmap N (UIElement ElementData)) (d : Document) : Document :=
  {| scene_ := scene_ d; ui_ := h; root_ := root_ d; target_ := target_ d;
     objects_ := objects_ d |}.

(** What a call of [Undo] or [Redo] on a concrete action comes to:
    it returns a flag and leaves a document, or it calls a member
    function through a null pointer. *)
Inductive Outcome :=
| Returns (flag : bool) (d : Document)
| NullDereference.

Definition create_mode (id : N) : CreateMode :=
  if decide (id < FIRST_LOCAL_ID)%N then REPLICATED else LOCAL.

(** [GetUIElementByPath(root_, path)] as the actions use it. *)
Definition element_by_path (d : Document) (root : N) (path : UIElementPath) : option N :=
  resolved_ptr (GetUIElementByPath (ui_ d) root path).

(** *** [class UndoCreateNode] *)
Record UndoCreateNode := {
  cn_parentID_ : N;
  cn_nodeData_ : VectorBuffer
}.

Definition UndoCreateNode_Undo (a : UndoCreateNode) (d : Document) : Outcome :=
  match scene_ d with
  | None => Returns false d
  | Some sc =>
      let nodeID := ReadUInt (cn_nodeData_ a) 0 in
      match Scene_GetNode sc (cn_parentID_ a), Scene_GetNode sc nodeID with
      | Some parent, Some node => Returns true (set_scene (Node_RemoveChild parent node sc) d)
      | _, _ => Returns true d
      end
  end.

Definition UndoCreateNode_Redo (a : UndoCreateNode) (d : Document) : Outcome :=
  match scene_ d with
  | None => Returns false d
  | Some sc =>
      match Scene_GetNode sc (cn_parentID_ a) with
      | Some parent =>
          let nodeID := ReadUInt (cn_nodeData_ a) 0 in
          let '(node, sc1) := Node_CreateChild parent (create_mode nodeID) nodeID sc in
          Returns true (set_scene (Node_Load node (cn_nodeData_ a) sc1) d)
      | None => Returns true d
      end
  end.

(** *** [class UndoDeleteNode] *)
Record UndoDeleteNode := {
  dn_parentID_ : N;
  dn_parentIndex_ : N;
  dn_nodeData_ : VectorBuffer
}.

Definition UndoDeleteNode_Undo (a : UndoDeleteNode) (d : Document) : Outcome :=
  match scene_ d with
  | None => Returns false d
  | Some sc =>
      match Scene_GetNode sc (dn_parentID_ a) with
      | Some parent =>
          let nodeID := ReadUInt (dn_nodeData_ a) 0 in
          let '(node, sc1) := Node_AddNewChild parent nodeID (dn_parentIndex_ a) sc in
          Returns true (set_scene (Node_Load node (dn_nodeData_ a) sc1) d)
      | None => Returns true d
      end
  end.

Definition UndoDeleteNode_Redo (a : UndoDeleteNode) (d : Document) : Outcome :=
  match scene_ d with
  | None => Returns false d
  | Some sc =>
      let nodeID := ReadUInt (dn_nodeData_ a) 0 in
      match Scene_GetNode sc (dn_parentID_ a), Scene_GetNode sc nodeID with
      | Some parent, Some node => Returns true (set_scene (Node_RemoveChild parent node sc) d)
      | _, _ => Returns true d
      end
  end.

(** *** [class UndoReparentNode] *)
Record UndoReparentNode := {
  rn_nodeID_ : N;
  rn_oldParentID_ : N;
  rn_newParentID_ : N;
  rn_nodeList_ : list N;
  rn_multiple_ : bool
}.

(** [node->SetParent(parent)] under the guard that both pointers are
    not null. *)
Definition reparent_if_found (sc : Scene) (parentID nodeID : N) : Scene :=
  match Scene_GetNode sc parentID, Scene_GetNode sc nodeID with
  | Some parent, Some node => Node_SetParent node parent sc
  | _, _ => sc
  end.

(** The loop of [Undo] over [nodeList_], which holds a node and its
    old parent per entry pair. (The constructor only ever pushes
    pairs; the loop would read past the end of a vector of odd size.) *)
Fixpoint reparent_to_old (nodeList : list N) (sc : Scene) : Scene :=
  match nodeList with
  | nodeID :: oldParentID :: rest =>
      reparent_to_old rest (reparent_if_found sc oldParentID nodeID)
  | _ => sc
  end.

(** The loop of [Redo]: the new parent was looked up before it. *)
Fixpoint reparent_to_new (parent : Node) (nodeList : list N) (sc : Scene) : Scene :=
  match nodeList with
  | nodeID :: _ :: rest =>
      reparent_to_new parent rest
        match Scene_GetNode sc nodeID with
        | Some node => Node_SetParent node parent sc
        | None => sc
        end
  | _ => sc
  end.

Definition UndoReparentNode_Undo (a : UndoReparentNode) (d : Document) : Outcome :=
  match scene_ d with
  | None => Returns false d
  | Some sc =>
      if rn_multiple_ a then
        Returns true (set_scene (reparent_to_old (rn_nodeList_ a) sc) d)
      else
        Returns true (set_scene (reparent_if_found sc (rn_oldParentID_ a) (rn_nodeID_ a)) d)
  end.

Definition UndoReparentNode_Redo (a : UndoReparentNode) (d : Document) : Outcome :=
  match scene_ d with
  | None => Returns false d
  | Some sc =>
      if rn_multiple_ a then
        match Scene_GetNode sc (rn_newParentID_ a) with
        | None => Returns false d
        | Some parent =>
            Returns true (set_scene (reparent_to_new parent (rn_nodeList_ a) sc) d)
        end
      else
        Returns true (set_scene (reparent_if_found sc (rn_newParentID_ a) (rn_nodeID_ a)) d)
  end.

(** *** [class UndoCreateComponent] *)
Record UndoCreateComponent := {
  cc_nodeID_ : N;
  cc_componentData_ : VectorBuffer
}.

Definition UndoCreateComponent_Undo (a : UndoCreateComponent) (d : Document) : Outcome :=
  match scene_ d with
  | None => Returns false d
  | Some sc =>
      let componentID := ReadUInt (cc_componentData_ a) sizeof_StringHash in
      match Scene_GetNode sc (cc_nodeID_ a), Scene_GetComponent sc componentID with
      | Some node, Some component =>
          Returns true (set_scene (Node_RemoveComponent node component sc) d)
      | _, _ => Returns true d
      end
  end.

Definition UndoCreateComponent_Redo (a : UndoCreateComponent) (d : Document) : Outcome :=
  match scene_ d with
  | None => Returns false d
  | Some sc =>
      match Scene_GetNode sc (cc_nodeID_ a) with
      | Some node =>
          let componentType := ReadStringHash (cc_componentData_ a) 0 in
          let componentID := ReadUInt (cc_componentData_ a) sizeof_StringHash in
          let '(component, sc1) :=
            Node_CreateComponent node componentType (create_mode componentID) componentID sc in
          let '(_, sc2) := Component_Load component (cc_componentData_ a) sc1 in
          Returns true (set_scene (Component_ApplyAttributes component sc2) d)
      | None => Returns true d
      end
  end.

(** *** [class UndoDeleteComponent] *)
Record UndoDeleteComponent := {
  dc_nodeID_ : N;
  dc_componentData_ : VectorBuffer
}.

Definition UndoDeleteComponent_Undo (a : UndoDeleteComponent) (d : Document) : Outcome :=
  match scene_ d with
  | None => Returns false d
  | Some sc =>
      match Scene_GetNode sc (dc_nodeID_ a) with
      | Some node =>
          let componentType := ReadStringHash (dc_componentData_ a) 0 in
          let componentID := ReadUInt (dc_componentData_ a) sizeof_StringHash in
          let '(component, sc1) :=
            Node_CreateComponent node componentType (create_mode componentID) componentID sc in
          let '(loaded, sc2) := Component_Load component (dc_componentData_ a) sc1 in
          if loaded then Returns true (set_scene (Component_ApplyAttributes component sc2) d)
          else Returns true (set_scene sc2 d)
      | None => Returns true d
      end
  end.

Definition UndoDeleteComponent_Redo (a : UndoDeleteComponent) (d : Document) : Outcome :=
  match scene_ d with
  | None => Returns false d
  | Some sc =>
      let componentID := ReadUInt (dc_componentData_ a) sizeof_StringHash in
      match Scene_GetNode sc (dc_nodeID_ a), Scene_GetComponent sc componentID with
      | Some node, Some component =>
          Returns true (set_scene (Node_RemoveComponent node component sc) d)
      | _, _ => Returns true d
      end
  end.

(** *** [class UndoEditAttribute] *)

(** What [targetType_] (the dynamic type of the target) compares
    equal to: the static type of [Node], of [Component], of
    [UIElement], or none of them, as for every object of a class
    derived from one of the three. *)
Inductive TargetType :=
| NodeType
| ComponentType
| UIElementType
| OtherType.

Record UndoEditAttribute := {
  ea_targetID : N;
  ea_targetPath_ : UIElementPath;
  ea_attrName_ : string;
  ea_undoValue_ : Variant;
  ea_redoValue_ : Variant;
  ea_targetType_ : TargetType
}.

(** The [Serializable*] that [GetTarget] returns, when it is not
    null: a node, component or element that was looked up, or what
    [target_.Get()] returns in the fall-through case. *)
Inductive Target :=
| TargetNode (node : Node)
| TargetComponent (component : Component)
| TargetElement (element : N)
| TargetObject (object : Serializable).

Definition UndoEditAttribute_GetTarget (a : UndoEditAttribute) (d : Document) : option Target :=
  match ea_targetType_ a with
  | NodeType => sc ← scene_ d; TargetNode <$> Scene_GetNode sc (ea_targetID a)
  | ComponentType => sc ← scene_ d; TargetComponent <$> Scene_GetComponent sc (ea_targetID a)
  | UIElementType =>
      root ← root_ d; TargetElement <$> element_by_path d root (ea_targetPath_ a)
  | OtherType => TargetObject <$> target_ d
  end.

Definition UndoEditAttribute_IsExpired (a : UndoEditAttribute) (d : Document) : bool :=
  match ea_targetType_ a with
  | NodeType | ComponentType => bool_decide (scene_ d = None :> option Scene)
  | UIElementType => bool_decide (root_ d = None)
  | OtherType => bool_decide (target_ d = None :> option Serializable)
  end.

(** [target->SetAttribute(name, value); target->ApplyAttributes()]. *)
Definition set_attribute (t : Target) (name : string) (value : Variant) (d : Document)
    : Document :=
  match t with
  | TargetNode node =>
      match scene_ d with
      | Some sc => set_scene (Node_SetAttribute node name value sc) d
      | None => d
      end
  | TargetComponent component =>
      match scene_ d with
      | Some sc => set_scene (Component_SetAttribute component name value sc) d
      | None => d
      end
  | TargetElement element => set_ui (UIElement_SetAttribute element name value (ui_ d)) d
  | TargetObject object =>
      let '(sc, h, o) :=
        Serializable_SetAttribute object name value (scene_ d, ui_ d, objects_ d) in
      {| scene_ := sc; ui_ := h; root_ := root_ d; target_ := target_ d; objects_ := o |}
  end.

Definition UndoEditAttribute_Undo (a : UndoEditAttribute) (d : Document) : Outcome :=
  if UndoEditAttribute_IsExpired a d then Returns false d
  else
    match UndoEditAttribute_GetTarget a d with
    | Some target => Returns true (set_attribute target (ea_attrName_ a) (ea_undoValue_ a) d)
    | None => Returns true d
    end.

Definition UndoEditAttribute_Redo (a : UndoEditAttribute) (d : Document) : Outcome :=
  if UndoEditAttribute_IsExpired a d then Returns false d
  else
    match UndoEditAttribute_GetTarget a d with
    | Some target => Returns true (set_attribute target (ea_attrName_ a) (ea_redoValue_ a) d)
    | None => Returns true d
    end.

(** *** [class UndoCreateUIElement] *)
Record UndoCreateUIElement := {
  cu_elementPath_ : UIElementPath;
  cu_parentPath_ : UIElementPath;
  cu_elementData_ : XMLFile;
  cu_styleFile_ : option XMLFile
}.

Definition UndoCreateUIElement_Undo (a : UndoCreateUIElement) (d : Document) : Outcome :=
  match root_ d with
  | None => Returns false d
  | Some root =>
      match element_by_path d root (cu_parentPath_ a),
            element_by_path d root (cu_elementPath_ a) with
      | Some parent, Some element =>
          Returns true (set_ui (UIElement_RemoveChild parent element (ui_ d)) d)
      | _, _ => Returns true d
      end
  end.

Definition UndoCreateUIElement_Redo (a : UndoCreateUIElement) (d : Document) : Outcome :=
  match root_ d with
  | None => Returns false d
  | Some root =>
      match element_by_path d root (cu_parentPath_ a) with
      | Some parent =>
          Returns true
            (set_ui (UIElement_LoadChildXML parent (cu_elementData_ a) (cu_styleFile_ a) (ui_ d)) d)
      | None => Returns true d
      end
  end.

(** *** [class UndoDeleteUIElement] *)
Record UndoDeleteUIElement := {
  du_elementPath_ : UIElementPath;
  du_parentPath_ : UIElementPath;
  du_elementData_ : XMLFile;
  du_styleFile_ : option XMLFile
}.

Definition UndoDeleteUIElement_Undo (a : UndoDeleteUIElement) (d : Document) : Outcome :=
  match root_ d with
  | None => Returns false d
  | Some root =>
      match element_by_path d root (du_parentPath_ a) with
      | Some parent =>
          Returns true
            (set_ui (UIElement_LoadChildXML parent (du_elementData_ a) (du_styleFile_ a) (ui_ d)) d)
      | None => Returns true d
      end
  end.

Definition UndoDeleteUIElement_Redo (a : UndoDeleteUIElement) (d : Document) : Outcome :=
  match root_ d with
  | None => Returns false d
  | Some root =>
      match element_by_path d root (du_parentPath_ a),
            element_by_path d root (du_elementPath_ a) with
      | Some parent, Some element =>
          Returns true (set_ui (UIElement_RemoveChild parent element (ui_ d)) d)
      | _, _ => Returns true d
      end
  end.

(** *** [class UndoReparentUIElement] *)
Record UndoReparentUIElement := {
  ru_elementPath_ : UIElementPath;
  ru_oldParentPath_ : UIElementPath;
  ru_oldChildIndex_ : N;
  ru_newParentPath_ : UIElementPath
}.

Definition UndoReparentUIElement_Undo (a : UndoReparentUIElement) (d : Document) : Outcome :=
  match root_ d with
  | None => Returns false d
  | Some root =>
      match element_by_path d root (ru_oldParentPath_ a),
            element_by_path d root (ru_elementPath_ a) with
      | Some parent, Some element =>
          Returns true
            (set_ui (UIElement_SetParent element parent (Some (ru_oldChildIndex_ a)) (ui_ d)) d)
      | _, _ => Returns true d
      end
  end.

Definition UndoReparentUIElement_Redo (a : UndoReparentUIElement) (d : Document) : Outcome :=
  match root_ d with
  | None => Returns false d
  | Some root =>
      match element_by_path d root (ru_newParentPath_ a),
            element_by_path d root (ru_elementPath_ a) with
      | Some parent, Some element =>
          Returns true (set_ui (UIElement_SetParent element parent None (ui_ d)) d)
      | _, _ => Returns true d
      end
  end.

(** *** [class UndoApplyUIElementStyle] *)
Record UndoApplyUIElementStyle := {
  as_elementPath_ : UIElementPath;
  as_parentPath_ : UIElementPath;
  as_elementData_ : XMLFile;
  as_styleFile_ : option XMLFile;
  as_elementOldStyle_ : string;
  as_elementNewStyle_ : string
}.

(** [ApplyStyle(style)]. The style is written into the action's own
    copy of the element data before the element is loaded from it; the
    copy is rewritten on every call, so it is computed here. *)
Definition UndoApplyUIElementStyle_ApplyStyle (a : UndoApplyUIElementStyle)
    (root : N) (style : string) (d : Document) : Document :=
  match element_by_path d root (as_parentPath_ a),
        element_by_path d root (as_elementPath_ a) with
  | Some parent, Some element =>
      let data := XMLFile_SetStyle (as_elementData_ a) style in
      set_ui (UIElement_LoadChildXML parent data (as_styleFile_ a)
                (UIElement_RemoveChild parent element (ui_ d))) d
  | _, _ => d
  end.

Definition UndoApplyUIElementStyle_Undo (a : UndoApplyUIElementStyle) (d : Document) : Outcome :=
  match root_ d with
  | None => Returns false d
  | Some root =>
      Returns true (UndoApplyUIElementStyle_ApplyStyle a root (as_elementOldStyle_ a) d)
  end.

Definition UndoApplyUIElementStyle_Redo (a : UndoApplyUIElementStyle) (d : Document) : Outcome :=
  match root_ d with
  | None => Returns false d
  | Some root =>
      Returns true (UndoApplyUIElementStyle_ApplyStyle a root (as_elementNewStyle_ a) d)
  end.

(** *** [class UndoEditUIStyle] *)
Record UndoEditUIStyle := {
  es_oldStyle_ : XMLFile;
  es_newStyle_ : XMLFile;
  es_elementId_ : UIElementPath;
  es_oldValue_ : Variant;
  es_newValue_ : Variant;
  es_attributeName_ : string
}.

(** The pointer [GetUIElementByPath] returns is used without a test
    against null. *)
Definition UndoEditUIStyle_Undo (a : UndoEditUIStyle) (d : Document) : Outcome :=
  match root_ d with
  | None => Returns false d
  | Some root =>
      match element_by_path d root (es_elementId_ a) with
      | None => NullDereference
      | Some element =>
          Returns true
            (set_ui (UIElement_ReplaceDefaultStyle element (es_oldStyle_ a)
                       (UIElement_SetInstanceDefault element (es_attributeName_ a)
                          (es_oldValue_ a) (ui_ d))) d)
      end
  end.

Definition UndoEditUIStyle_Redo (a : UndoEditUIStyle) (d : Document) : Outcome :=
  match root_ d with
  | None => Returns false d
  | Some root =>
      match element_by_path d root (es_elementId_ a) with
      | None => NullDereference
      | Some element =>
          Returns true
            (set_ui (UIElement_ReplaceDefaultStyle element (es_newStyle_ a)
                       (UIElement_SetInstanceDefault element (es_attributeName_ a)
                          (es_newValue_ a) (ui_ d))) d)
      end
  end.

(** *** The concrete actions as one type *)

Inductive Command :=
| CreateNode (a : UndoCreateNode)
| DeleteNode (a : UndoDeleteNode)
| ReparentNode (a : UndoReparentNode)
| CreateComponent (a : UndoCreateComponent)
| DeleteComponent (a : UndoDeleteComponent)
| EditAttribute (a : UndoEditAttribute)
| CreateUIElement (a : UndoCreateUIElement)
| DeleteUIElement (a : UndoDeleteUIElement)
| ReparentUIElement (a : UndoReparentUIElement)
| ApplyUIElementStyle (a : UndoApplyUIElementStyle)
| EditUIStyle (a : UndoEditUIStyle).

(** The virtual call [action->Undo(context)]. *)
Definition Command_Undo (c : Command) (d : Document) : Outcome :=
  match c with
  | CreateNode a => UndoCreateNode_Undo a d
  | DeleteNode a => UndoDeleteNode_Undo a d
  | ReparentNode a => UndoReparentNode_Undo a d
  | CreateComponent a => UndoCreateComponent_Undo a d
  | DeleteComponent a => UndoDeleteComponent_Undo a d
  | EditAttribute a => UndoEditAttribute_Undo a d
  | CreateUIElement a => UndoCreateUIElement_Undo a d
  | DeleteUIElement a => UndoDeleteUIElement_Undo a d
  | ReparentUIElement a => UndoReparentUIElement_Undo a d
  | ApplyUIElementStyle a => UndoApplyUIElementStyle_Undo a d
  | EditUIStyle a => UndoEditUIStyle_Undo a d
  end.

(** The virtual call [action->Redo(context)]. *)
Definition Command_Redo (c : Command) (d : Document) : Outcome :=
  match c with
  | CreateNode a => UndoCreateNode_Redo a d
  | DeleteNode a => UndoDeleteNode_Redo a d
  | ReparentNode a => UndoReparentNode_Redo a d
  | CreateComponent a => UndoCreateComponent_Redo a d
  | DeleteComponent a => UndoDeleteComponent_Redo a d
  | EditAttribute a => UndoEditAttribute_Redo a d
  | CreateUIElement a => UndoCreateUIElement_Redo a d
  | DeleteUIElement a => UndoDeleteUIElement_Redo a d
  | ReparentUIElement a => UndoReparentUIElement_Redo a d
  | ApplyUIElementStyle a => UndoApplyUIElementStyle_Redo a d
  | EditUIStyle a => UndoEditUIStyle_Redo a d
  end.

(** *** Expired roots and identifiers that do not resolve *)

(** The lookups the actions make, on the document as it is now. *)
Definition find_node (d : Document) (id : N) : option Node :=
  sc ← scene_ d; Scene_GetNode sc id.

Definition find_component (d : Document) (id : N) : option Component :=
  sc ← scene_ d; Scene_GetComponent sc id.

Definition find_element (d : Document) (path : UIElementPath) : option N :=
  root ← root_ d; element_by_path d root path.

(** The weak pointer the action tests first has expired. *)
Definition expired (c : Command) (d : Document) : Prop :=
  match c with
  | CreateNode _ | DeleteNode _ | ReparentNode _
  | CreateComponent _ | DeleteComponent _ => scene_ d = None
  | EditAttribute a => UndoEditAttribute_IsExpired a d = true
  | CreateUIElement _ | DeleteUIElement _ | ReparentUIElement _
  | ApplyUIElementStyle _ | EditUIStyle _ => root_ d = None
  end.

(** No entry pair of [nodeList_] gives a node and an old parent that
    both exist. *)
Fixpoint pairs_unresolved (d : Document) (nodeList : list N) : Prop :=
  match nodeList with
  | nodeID :: oldParentID :: rest =>
      (find_node d oldParentID = None \/ find_node d nodeID = None) /\
      pairs_unresolved d rest
  | _ => True
  end.

(** No node of [nodeList_] exists. *)
Fixpoint nodes_unresolved (d : Document) (nodeList : list N) : Prop :=
  match nodeList with
  | nodeID :: _ :: rest => find_node d nodeID = None /\ nodes_unresolved d rest
  | _ => True
  end.

(** An identifier or path that [Undo] needs does not resolve. *)
Definition unresolved_Undo (c : Command) (d : Document) : Prop :=
  match c with
  | CreateNode a =>
      find_node d (cn_parentID_ a) = None \/
      find_node d (ReadUInt (cn_nodeData_ a) 0) = None
  | DeleteNode a => find_node d (dn_parentID_ a) = None
  | ReparentNode a =>
      if rn_multiple_ a then pairs_unresolved d (rn_nodeList_ a)
      else find_node d (rn_oldParentID_ a) = None \/ find_node d (rn_nodeID_ a) = None
  | CreateComponent a =>
      find_node d (cc_nodeID_ a) = None \/
      find_component d (ReadUInt (cc_componentData_ a) sizeof_StringHash) = None
  | DeleteComponent a => find_node d (dc_nodeID_ a) = None
  | EditAttribute a => UndoEditAttribute_GetTarget a d = None
  | CreateUIElement a =>
      find_element d (cu_parentPath_ a) = None \/ find_element d (cu_elementPath_ a) = None
  | DeleteUIElement a => find_element d (du_parentPath_ a) = None
  | ReparentUIElement a =>
      find_element d (ru_oldParentPath_ a) = None \/ find_element d (ru_elementPath_ a) = None
  | ApplyUIElementStyle a =>
      find_element d (as_parentPath_ a) = None \/ find_element d (as_elementPath_ a) = None
  | EditUIStyle a => find_element d (es_elementId_ a) = None
  end.

(** An identifier or path that [Redo] needs does not resolve. *)
Definition unresolved_Redo (c : Command) (d : Document) : Prop :=
  match c with
  | CreateNode a => find_node d (cn_parentID_ a) = None
  | DeleteNode a =>
      find_node d (dn_parentID_ a) = None \/
      find_node d (ReadUInt (dn_nodeData_ a) 0) = None
  | ReparentNode a =>
      if rn_multiple_ a then
        find_node d (rn_newParentID_ a) = None \/ nodes_unresolved d (rn_nodeList_ a)
      else find_node d (rn_newParentID_ a) = None \/ find_node d (rn_nodeID_ a) = None
  | CreateComponent a => find_node d (cc_nodeID_ a) = None
  | DeleteComponent a =>
      find_node d (dc_nodeID_ a) = None \/
      find_component d (ReadUInt (dc_componentData_ a) sizeof_StringHash) = None
  | EditAttribute a => UndoEditAttribute_GetTarget a d = None
  | CreateUIElement a => find_element d (cu_parentPath_ a) = None
  | DeleteUIElement a =>
      find_element d (du_parentPath_ a) = None \/ find_element d (du_elementPath_ a) = None
  | ReparentUIElement a =>
      find_element d (ru_newParentPath_ a) = None \/ find_element d (ru_elementPath_ a) = None
  | ApplyUIElementStyle a =>
      find_element d (as_parentPath_ a) = None \/ find_element d (as_elementPath_ a) = None
  | EditUIStyle a => find_element d (es_elementId_ a) = None
  end.

(** The one place where an identifier that does not resolve makes a
    call report false: the new parent of a batch reparent in [Redo]. *)
Definition batch_parent_missing (c : Command) (d : Document) : bool :=
  match c with
  | ReparentNode a =>
      rn_multiple_ a &&
      match find_node d (rn_newParentID_ a) with
      | None => true
      | Some _ => false
      end
  | _ => false
  end.

(** The same reparent action with another [nodeList_]. *)
Definition with_nodeList (nodeList : list N) (a : UndoReparentNode) : UndoReparentNode :=
  {| rn_nodeID_ := rn_nodeID_ a; rn_oldParentID_ := rn_oldParentID_ a;
     rn_newParentID_ := rn_newParentID_ a; rn_nodeList_ := nodeList;
     rn_multiple_ := rn_multiple_ a |}.

Definition is_EditUIStyle (c : Command) : bool :=
  match c with
  | EditUIStyle _ => true
  | _ => false
  end.

End Commands.

(** ** Further parts of the header *)

Section UITreeShape.
Context {Data : Type}.

(** No element is listed twice among the children of its parent. *)
Definition tree_nodup (h : gmap N (UIElement Data)) : Prop :=
  map_Forall (fun _ e => NoDup (children_ e)) h.

#[global] Instance tree_nodup_dec (h : gmap N (UIElement Data)) : Decision (tree_nodup h).
Proof. unfold tree_nodup. apply _. Defined.

End UITreeShape.

Section Capture.
Context `{Engine}.

(** The constructor [UndoCreateUIElement(element)], as far as the
    paths go: [elementPath_] is the path of the element and
    [parentPath_] the path of [element->GetParent()]. The XML the
    element is saved to and its default style come from the engine and
    are passed in. [None] when a path function does not return, or the
    element has no parent to take a path of. *)
Definition UndoCreateUIElement_new (fuel : nat) (d : Document) (element : N)
    (elementData : XMLFile) (styleFile : option XMLFile) : option UndoCreateUIElement :=
  elementPath ← GetUIElementPath fuel (ui_ d) element;
  parent ← GetParent (ui_ d) element;
  parentPath ← GetUIElementPath fuel (ui_ d) parent;
  Some {| cu_elementPath_ := elementPath; cu_parentPath_ := parentPath;
          cu_elementData_ := elementData; cu_styleFile_ := styleFile |}.

End Capture.

Section ReparentForms.
Context `{Engine}.

(** The batch form of a reparent action for one node, as the second
    constructor of [UndoReparentNode] builds it: [nodeList_] holds the
    node and its parent at the time; the fields of the single form are
    not set by that constructor and take no part in the batch code. *)
Definition batch_of_one (nodeID oldParentID newParentID : N) (unset : N) : UndoReparentNode :=
  {| rn_nodeID_ := unset; rn_oldParentID_ := unset; rn_newParentID_ := newParentID;
     rn_nodeList_ := [nodeID; oldParentID]; rn_multiple_ := true |}.

(** The single form, as the first constructor builds it. *)
Definition single_reparent (nodeID oldParentID newParentID : N) : UndoReparentNode :=
  {| rn_nodeID_ := nodeID; rn_oldParentID_ := oldParentID; rn_newParentID_ := newParentID;
     rn_nodeList_ := []; rn_multiple_ := false |}.

End ReparentForms.

(** *** [struct ValueHistory] of the attribute inspector *)

Section ValueHistoryModel.
Context {Value : Type} `{Inhabited Value}.

(** [operator!=] of the value type. Nothing is assumed of it: for a
    floating-point value it is not the negation of an equivalence, a
    NaN being different from itself. *)
Context (ne : Value -> Value -> bool).

(** The three data members. [Value] is taken to be a value type, so
    [current_] is a copy of its own. *)
Record ValueHistory := {
  vh_initial_ : Value;
  vh_current_ : Value;
  vh_expired_ : bool
}.

(** The constructor [ValueHistory(current)]: [initial_] is
    value-initialised and [expired_] starts as true. *)
Definition ValueHistory_new (current : Value) : ValueHistory :=
  {| vh_initial_ := inhabitant; vh_current_ := current; vh_expired_ := true |}.

(** [ValueHistory::Get(value)]. [state] is what [ui::GetUIState]
    keeps for the widget; that function (not part of the header) hands
    out the state it keeps and constructs it from its arguments when it
    keeps none. *)
Definition ValueHistory_Get (value : Value) (state : option ValueHistory) : ValueHistory :=
  let history := default (ValueHistory_new value) state in
  if vh_expired_ history then
    {| vh_initial_ := value; vh_current_ := value; vh_expired_ := false |}
  else history.

(** [ValueHistory::IsModified()]; [any_item_active] is what
    [ui::IsAnyItemActive()] returns. *)
Definition ValueHistory_IsModified (any_item_active : bool) (history : ValueHistory)
    : bool * ValueHistory :=
  if ne (vh_initial_ history) (vh_current_ history) && negb any_item_active then
    (true, {| vh_initial_ := vh_initial_ history; vh_current_ := vh_current_ history;
              vh_expired_ := true |})
  else (false, history).

(** One visit of a widget: it gets its history for the value it
    shows, may store a new value into [current_], and asks whether the
    value was modified. A history that has not expired keeps its own
    [current_]: [Get] does not look at the value it is given then. *)
Record Visit := {
  visit_value : Value;
  visit_edit : option Value;
  visit_active : bool
}.

Definition ValueHistory_store (edit : option Value) (history : ValueHistory) : ValueHistory :=
  match edit with
  | Some v => {| vh_initial_ := vh_initial_ history; vh_current_ := v;
                 vh_expired_ := vh_expired_ history |}
  | None => history
  end.

Definition visit (x : Visit) (state : option ValueHistory) : bool * ValueHistory :=
  ValueHistory_IsModified (visit_active x)
    (ValueHistory_store (visit_edit x) (ValueHistory_Get (visit_value x) state)).

(** A run of visits: what each reported, and the state kept at the end. *)
Fixpoint visits (xs : list Visit) (state : option ValueHistory)
    : list bool * option ValueHistory :=
  match xs with
  | [] => ([], state)
  | x :: rest =>
      let '(modified, history) := visit x state in
      let '(reports, final) := visits rest (Some history) in
      (modified :: reports, final)
  end.

(** The value the widget holds after the visits, starting from [v]. *)
Definition last_edit (xs : list Visit) (v : Value) : Value :=
  foldl (fun acc x => default acc (visit_edit x)) v xs.

End ValueHistoryModel.

Arguments ValueHistory : clear implicits.
Arguments Visit : clear implicits.

(** *** Nested tracking guards *)

Section NestedGuards.
Context {World Value : Type}.

(** Guards built one inside the other, as nested scopes do: each
    guard is destroyed when its scope ends, the innermost first.
    [body] runs in the innermost scope. *)
Fixpoint with_guards (tracks : list bool)
    (body : UndoStack World Value -> UndoStack World Value)
    (s : UndoStack World Value) : UndoStack World Value :=
  match tracks with
  | [] => body s
  | track :: rest =>
      let '(guard, s1) := UndoTrackGuard_new s track in
      UndoTrackGuard_delete guard (with_guards rest body s1)
  end.

End NestedGuards.

(** *** The build script of the embree tasking library *)

(** The variables the script reads. *)
Record TaskingOptions := {
  TASKING_INTERNAL : bool;
  TASKING_TBB : bool;
  TASKING_PPL : bool;
  URHO3D_MERGE_STATIC_LIBS : bool;
  TBB_LIBRARIES : list string;
  PPL_LIBRARIES : list string;
  FLAGS_LOWEST : string;
  DEST_ARCHIVE_DIR : string
}.

(** What the script sets on a library target. *)
Record LibraryTarget := {
  target_sources : list string;
  link_private : list string;
  link_public : list string;
  folder : option string;
  interface_compile_flags : list string
}.

(** The targets defined so far and the install rules, as pairs of a
    target and its archive destination. *)
Record Project := {
  project_targets : gmap string LibraryTarget;
  project_installs : list (string * string)
}.

(** The commands are CMake's own; each is taken with the behaviour
    CMake gives it: a command that names a target that was not added
    stops the configuration with an error ([None]), and so does adding
    a target twice. *)
Definition ADD_LIBRARY (name : string) (sources : list string) (proj : Project)
    : option Project :=
  match project_targets proj !! name with
  | Some _ => None
  | None =>
      Some {| project_targets :=
                <[name := {| target_sources := sources; link_private := [];
                             link_public := []; folder := None;
                             interface_compile_flags := [] |}]> (project_targets proj);
              project_installs := project_installs proj |}
  end.

Definition on_target (name : string) (f : LibraryTarget -> LibraryTarget) (proj : Project)
    : option Project :=
  match project_targets proj !! name with
  | None => None
  | Some t =>
      Some {| project_targets := <[name := f t]> (project_targets proj);
              project_installs := project_installs proj |}
  end.

Definition TARGET_LINK_LIBRARIES_PRIVATE (name : string) (libs : list string)
    : Project -> option Project :=
  on_target name (fun t =>
    {| target_sources := target_sources t; link_private := link_private t ++ libs;
       link_public := link_public t; folder := folder t;
       interface_compile_flags := interface_compile_flags t |}).

Definition TARGET_LINK_LIBRARIES_PUBLIC (name : string) (libs : list string)
    : Project -> option Project :=
  on_target name (fun t =>
    {| target_sources := target_sources t; link_private := link_private t;
       link_public := link_public t ++ libs; folder := folder t;
       interface_compile_flags := interface_compile_flags t |}).

Definition SET_PROPERTY_FOLDER (name : string) (value : string)
    : Project -> option Project :=
  on_target name (fun t =>
    {| target_sources := target_sources t; link_private := link_private t;
       link_public := link_public t; folder := Some value;
       interface_compile_flags := interface_compile_flags t |}).

Definition SET_PROPERTY_APPEND_INTERFACE_COMPILE_FLAGS (name : string) (value : string)
    : Project -> option Project :=
  on_target name (fun t =>
    {| target_sources := target_sources t; link_private := link_private t;
       link_public := link_public t; folder := folder t;
       interface_compile_flags := interface_compile_flags t ++ [value] |}).

Definition install_archive (name : string) (destination : string) (proj : Project)
    : option Project :=
  match project_targets proj !! name with
  | None => None
  | Some _ =>
      Some {| project_targets := project_targets proj;
              project_installs := project_installs proj ++ [(name, destination)] |}
  end.

(** The script, command by command. *)
Definition tasking_CMakeLists (o : TaskingOptions) (proj : Project) : option Project :=
  proj1 ←
    (if TASKING_INTERNAL o then
       ADD_LIBRARY "embree-tasking" ["taskschedulerinternal.cpp"%string] proj
     else if TASKING_TBB o then
       added ← ADD_LIBRARY "embree-tasking" ["taskschedulertbb.cpp"%string] proj;
       linked ← TARGET_LINK_LIBRARIES_PRIVATE "embree-tasking"
                  ["embree-sys"%string; "embree-math"%string] added;
       TARGET_LINK_LIBRARIES_PUBLIC "embree-tasking" (TBB_LIBRARIES o) linked
     else if TASKING_PPL o then
       added ← ADD_LIBRARY "embree-tasking" ["taskschedulerppl.cpp"%string] proj;
       linked ← TARGET_LINK_LIBRARIES_PRIVATE "embree-tasking"
                  ["embree-sys"%string; "embree-math"%string] added;
       TARGET_LINK_LIBRARIES_PUBLIC "embree-tasking" (PPL_LIBRARIES o) linked
     else Some proj);
  proj2 ← SET_PROPERTY_FOLDER "embree-tasking" "ThirdParty/embree3/common" proj1;
  proj3 ← SET_PROPERTY_APPEND_INTERFACE_COMPILE_FLAGS "embree-tasking"
            (String.append " " (FLAGS_LOWEST o)) proj2;
  if URHO3D_MERGE_STATIC_LIBS o then Some proj3
  else install_archive "embree-tasking" (DEST_ARCHIVE_DIR o) proj3.

(** The scheduler the options select, the first that is set winning. *)
Definition selected_scheduler (o : TaskingOptions) : option string :=
  if TASKING_INTERNAL o then Some "taskschedulerinternal.cpp"%string
  else if TASKING_TBB o then Some "taskschedulertbb.cpp"%string
  else if TASKING_PPL o then Some "taskschedulerppl.cpp"%string
  else None.

(** ** Proof steps shared by the action proofs *)

(** The action tested a weak pointer that has not expired. *)
Ltac scene_alive d Hexp :=
  let sc := fresh "sc" in
  let Hsc := fresh "Hsc" in
  destruct (scene_ d) as [sc|] eqn:Hsc; [| by destruct Hexp]; simpl in *.

Ltac root_alive d Hexp :=
  let root := fresh "root" in
  let Hroot := fresh "Hroot" in
  destruct (root_ d) as [root|] eqn:Hroot; [| by destruct Hexp]; simpl in *.

(** Case analysis over everything an action looks up or creates. *)
Ltac open_action :=
  repeat match goal with
  | |- context [match scene_ ?d with _ => _ end] => destruct (scene_ d) eqn:?
  | |- context [match root_ ?d with _ => _ end] => destruct (root_ d) eqn:?
  | |- context [match Scene_GetNode ?sc ?i with _ => _ end] =>
      destruct (Scene_GetNode sc i) eqn:?
  | |- context [match Scene_GetComponent ?sc ?i with _ => _ end] =>
      destruct (Scene_GetComponent sc i) eqn:?
  | |- context [match element_by_path ?d ?r ?p with _ => _ end] =>
      destruct (element_by_path d r p) eqn:?
  | |- context [Node_CreateChild ?a ?b ?c ?sc] => destruct (Node_CreateChild a b c sc)
  | |- context [Node_AddNewChild ?a ?b ?c ?sc] => destruct (Node_AddNewChild a b c sc)
  | |- context [Node_CreateComponent ?a ?b ?c ?e ?sc] =>
      destruct (Node_CreateComponent a b c e sc)
  | |- context [Component_Load ?a ?b ?sc] => destruct (Component_Load a b sc) as [[|] ?]
  | |- context [if rn_multiple_ ?a then _ else _] => destruct (rn_multiple_ a) eqn:?
  | |- context [if UndoEditAttribute_IsExpired ?a ?d then _ else _] =>
      destruct (UndoEditAttribute_IsExpired a d) eqn:?
  | |- context [match UndoEditAttribute_GetTarget ?a ?d with _ => _ end] =>
      destruct (UndoEditAttribute_GetTarget a d) eqn:?
  end.

(** The bodies of all concrete actions. *)
Ltac unfold_actions :=
  unfold Command_Undo, Command_Redo,
    UndoCreateNode_Undo, UndoCreateNode_Redo, UndoDeleteNode_Undo, UndoDeleteNode_Redo,
    UndoReparentNode_Undo, UndoReparentNode_Redo,
    UndoCreateComponent_Undo, UndoCreateComponent_Redo,
    UndoDeleteComponent_Undo, UndoDeleteComponent_Redo,
    UndoEditAttribute_Undo, UndoEditAttribute_Redo,
    UndoCreateUIElement_Undo, UndoCreateUIElement_Redo,
    UndoDeleteUIElement_Undo, UndoDeleteUIElement_Redo,
    UndoReparentUIElement_Undo, UndoReparentUIElement_Redo,
    UndoApplyUIElementStyle_Undo, UndoApplyUIElementStyle_Redo,
    UndoEditUIStyle_Undo, UndoEditUIStyle_Redo.

(** ** Small documents for the examples *)

(** A command that does nothing, on a document without content. *)
Definition noop_action : UndoAction unit :=
  {| Undo := fun w => (true, w); Redo := fun w => (true, w); OnModified := fun w => w |}.

Definition suspended_stack : UndoStack unit unit :=
  SetTrackingEnabled false UndoStack_new.

(** A document that is one integer attribute, and the setter an
    attribute edit uses for both directions. *)
Definition set_value : Setter Z Z := fun v _ => (true, v).

Definition edit_value (old new : Z) : UndoAction Z :=
  as_action {| initial_ := old; current_ := new; modified_ := true;
               onUndo_ := set_value; onRedo_ := None; onModified_ := None |}.

(** An edit whose hook writes the document. *)
Definition noisy_edit (old new : Z) : UndoAction Z :=
  {| Undo := fun _ => (true, old); Redo := fun _ => (true, new);
     OnModified := fun w => w + 1000 |}.

(** A command whose target is gone: both directions report failure. *)
Definition expired_action : UndoAction Z :=
  {| Undo := fun w => (false, w); Redo := fun w => (false, w);
     OnModified := fun w => w + 1000 |}.

Definition fresh_stack : UndoStack Z Z := UndoStack_new.

(** A small UI tree: the root 1 has the children 2 and 3, and 2 has
    the child 4. *)
Definition small_ui : gmap N (UIElement unit) :=
  <[1%N := {| parent_ := None; children_ := [2%N; 3%N]; data_ := tt |}]>
  (<[2%N := {| parent_ := Some 1%N; children_ := [4%N]; data_ := tt |}]>
  (<[3%N := {| parent_ := Some 1%N; children_ := []; data_ := tt |}]>
  (<[4%N := {| parent_ := Some 2%N; children_ := []; data_ := tt |}]> ∅))).

(** A small engine for the examples: a scene is the parent of every
    node and the owner of every component, by identifier; a buffer is
    its sequence of 32-bit words. *)
Record ToyScene := {
  toy_nodes : gmap N N;
  toy_components : gmap N N
}.

Definition toy_read (buffer : list N) (pos : N) : N :=
  default 0%N (buffer !! N.to_nat (pos / 4)).

Definition toy_get_node (sc : ToyScene) (id : N) : option N :=
  if decide (is_Some (toy_nodes sc !! id)) then Some id else None.

Definition toy_get_component (sc : ToyScene) (id : N) : option N :=
  if decide (is_Some (toy_components sc !! id)) then Some id else None.

Definition toy_set_parent (node parent : N) (sc : ToyScene) : ToyScene :=
  {| toy_nodes := <[node := parent]> (toy_nodes sc); toy_components := toy_components sc |}.

Definition toy_remove_node (node : N) (sc : ToyScene) : ToyScene :=
  {| toy_nodes := delete node (toy_nodes sc); toy_components := toy_components sc |}.

Definition toy_set_owner (component node : N) (sc : ToyScene) : ToyScene :=
  {| toy_nodes := toy_nodes sc; toy_components := <[component := node]> (toy_components sc) |}.

Definition toy_remove_component (component : N) (sc : ToyScene) : ToyScene :=
  {| toy_nodes := toy_nodes sc; toy_components := delete component (toy_components sc) |}.

Definition toy_remove_child (parent element : N) (h : gmap N (UIElement unit))
    : gmap N (UIElement unit) :=
  alter (fun e => {| parent_ := parent_ e;
                     children_ := filter (fun c => c <> element) (children_ e);
                     data_ := data_ e |}) parent (delete element h).

#[global] Instance toy_engine : Engine := {|
  Scene := ToyScene;
  Node := N;
  Component := N;
  Serializable := unit;
  Objects := unit;
  VectorBuffer := list N;
  StringHash := N;
  Variant := Z;
  XMLFile := unit;
  ElementData := unit;
  FIRST_LOCAL_ID := 16777216%N;
  sizeof_StringHash := 4%N;
  ReadUInt := toy_read;
  ReadStringHash := toy_read;
  Scene_GetNode := toy_get_node;
  Scene_GetComponent := toy_get_component;
  Node_RemoveChild := fun _ node sc => toy_remove_node node sc;
  Node_CreateChild := fun parent _ id sc => (id, toy_set_parent id parent sc);
  Node_Load := fun _ _ sc => sc;
  Node_AddNewChild := fun parent id _ sc => (id, toy_set_parent id parent sc);
  Node_SetParent := toy_set_parent;
  Node_RemoveComponent := fun _ component sc => toy_remove_component component sc;
  Node_CreateComponent := fun node _ _ id sc => (id, toy_set_owner id node sc);
  Component_Load := fun _ _ sc => (true, sc);
  Component_ApplyAttributes := fun _ sc => sc;
  Node_SetAttribute := fun _ _ _ sc => sc;
  Component_SetAttribute := fun _ _ _ sc => sc;
  UIElement_SetAttribute := fun _ _ _ h => h;
  Serializable_SetAttribute := fun _ _ _ stores => stores;
  UIElement_RemoveChild := toy_remove_child;
  UIElement_LoadChildXML := fun _ _ _ h => h;
  UIElement_SetParent := fun _ _ _ h => h;
  XMLFile_SetStyle := fun data _ => data;
  UIElement_SetInstanceDefault := fun _ _ _ h => h;
  UIElement_ReplaceDefaultStyle := fun _ _ h => h
|}.

(** A live scene with the root node 1 and its child 2, and the small
    UI tree with root 1. *)
Definition toy_document : Document :=
  {| scene_ := Some {| toy_nodes := <[1%N := 1%N]> (<[2%N := 1%N]> ∅);
                       toy_components := ∅ |};
     ui_ := small_ui;
     root_ := Some 1%N;
     target_ := None;
     objects_ := tt |}.

(** A scene with the root node 1, its child 2, and node 3 under
    node 2. *)
Definition deep_scene : ToyScene :=
  {| toy_nodes := <[1%N := 1%N]> (<[2%N := 1%N]> (<[3%N := 2%N]> ∅));
     toy_components := ∅ |}.

Definition deep_document : Document :=
  {| scene_ := Some deep_scene; ui_ := small_ui; root_ := Some 1%N;
     target_ := None; objects_ := tt |}.

(** The record of a batch that moved the nodes 9 and 3 from under
    node 1 to under node 2; node 9 is gone since. *)
Definition batch_with_stale_pair : UndoReparentNode :=
  {| rn_nodeID_ := 0%N; rn_oldParentID_ := 0%N; rn_newParentID_ := 2%N;
     rn_nodeList_ := [9%N; 1%N; 3%N; 1%N]; rn_multiple_ := true |}.

(** The record of the creation of node 9 under node 7; neither is in
    the scene of [toy_document] any more. *)
Definition stale_create_node : Command :=
  CreateNode {| cn_parentID_ := 7%N; cn_nodeData_ := [9%N] |}.

(** Two recorded edits, the second of them undone. *)
Definition two_groups_stack : UndoStack Z Z :=
  {| stack_ := [[edit_value 0 3]; [edit_value 3 5]]; index_ := 1;
     trackingEnabled_ := true; currentFrameActions_ := [];
     workingValueCache_ := ∅ |}.

(** One recorded group of two commands, the later one with a target
    that is gone. *)
Definition mixed_group_stack : UndoStack Z Z :=
  {| stack_ := [[edit_value 0 3; expired_action]]; index_ := 1;
     trackingEnabled_ := true; currentFrameActions_ := [];
     workingValueCache_ := ∅ |}.

(** A slider dragged from 0 through 1 and 2 to 3 while it is the
    active item, each pass starting from the value the last one left,
    and the pass after the mouse button is released. *)
Definition drag_0_to_3 : list (Pass (Value:=Z)) :=
  [ {| pass_current := 0; pass_edit := Some 1; pass_modified := true; pass_active := true |};
    {| pass_current := 1; pass_edit := Some 2; pass_modified := true; pass_active := true |};
    {| pass_current := 2; pass_edit := Some 3; pass_modified := true; pass_active := true |} ].

Definition settle_at_3 : Pass (Value:=Z) :=
  {| pass_current := 3; pass_edit := None; pass_modified := false; pass_active := false |}.




(** A stack in the middle of work: one recorded group, one action
    pending for the frame, and the widgets 7 and 8 both in the middle
    of an edit. *)
Definition busy_stack : UndoStack Z Z :=
  {| stack_ := [[edit_value 0 3]]; index_ := 1; trackingEnabled_ := true;
     currentFrameActions_ := [edit_value 3 4];
     workingValueCache_ :=
       <[7%N := {| initial_ := 0; current_ := 2; modified_ := true;
                   onUndo_ := set_value; onRedo_ := None; onModified_ := None |}]>
       (<[8%N := {| initial_ := 5; current_ := 6; modified_ := true;
                    onUndo_ := set_value; onRedo_ := None; onModified_ := None |}]> ∅) |}.

(** The pass of widget 7 after the mouse button is released at 2. *)
Definition release_at_2 : Pass (Value:=Z) :=
  {| pass_current := 2; pass_edit := None; pass_modified := false; pass_active := false |}.

(** A slider pulled from 0 to 1 and pushed to 2 while it is active,
    then let go. *)
Definition pull_to_1 : Visit Z :=
  {| visit_value := 0; visit_edit := Some 1; visit_active := true |}.

Definition push_to_2 : Visit Z :=
  {| visit_value := 0; visit_edit := Some 2; visit_active := true |}.

Definition let_go : Visit Z :=
  {| visit_value := 0; visit_edit := None; visit_active := false |}.

(** A visit right after that which stores 5 with no item active. *)
Definition store_again : Visit Z :=
  {| visit_value := 2; visit_edit := Some 5; visit_active := false |}.

(** [operator!=] on integers. *)
Definition differs (a b : Z) : bool := negb (a =? b).

(** [small_ui] after element 2 was taken out of the children of the
    root. *)
Definition small_ui_without_2 : gmap N (UIElement unit) :=
  <[1%N := {| parent_ := None; children_ := [3%N]; data_ := tt |}]> small_ui.

(** An empty project, and options with both TBB and PPL switched on. *)
Definition empty_project : Project :=
  {| project_targets := ∅; project_installs := [] |}.

Definition tbb_and_ppl : TaskingOptions :=
  {| TASKING_INTERNAL := false; TASKING_TBB := true; TASKING_PPL := true;
     URHO3D_MERGE_STATIC_LIBS := false;
     TBB_LIBRARIES := ["tbb"%string]; PPL_LIBRARIES := [];
     FLAGS_LOWEST := "-msse2"; DEST_ARCHIVE_DIR := "lib" |}.

(** * Properties *)

(** ** Helper facts on replay *)

Section ReplayFacts.
Context {World Value : Type}.
Implicit Types (s : UndoStack World Value) (w : World) (g : StateCollection World).

Lemma apply_inverse_length g : forall i w,
  length (apply_inverse i g w).1.1 = length g.
Proof.
  induction g as [|a rest IH]; intros i w; simpl; [done|].
  specialize (IH (S i) w).
  destruct (apply_inverse (S i) rest w) as [[oks evs] w1].
  destruct (Undo a w1) as [ok w2]. simpl in *. by rewrite IH.
Qed.

Lemma apply_forward_length g : forall i w,
  length (apply_forward i g w).1.1 = length g.
Proof.
  induction g as [|a rest IH]; intros i w; simpl; [done|].
  destruct (Redo a w) as [ok w1].
  specialize (IH (S i) w1).
  destruct (apply_forward (S i) rest w1) as [[oks evs] w2].
  simpl in *. by rewrite IH.
Qed.

(** The positions in a log start at the position of the head. *)
Lemma apply_inverse_from g : forall i w n b,
  EvUndo n b ∈ (apply_inverse i g w).1.2 -> (i <= n)%nat.
Proof.
  induction g as [|a rest IH]; intros i w n b; simpl; [by intros ?%elem_of_nil|].
  specialize (IH (S i) w n b).
  destruct (apply_inverse (S i) rest w) as [[oks evs] w1].
  destruct (Undo a w1) as [ok w2]. simpl in *.
  intros [Hin|Hin]%elem_of_app; [specialize (IH Hin); lia|].
  apply list_elem_of_singleton in Hin. injection Hin as -> _. lia.
Qed.

Lemma apply_forward_from g : forall i w n b,
  EvRedo n b ∈ (apply_forward i g w).1.2 -> (i <= n)%nat.
Proof.
  induction g as [|a rest IH]; intros i w n b; simpl; [by intros ?%elem_of_nil|].
  destruct (Redo a w) as [ok w1].
  specialize (IH (S i) w1 n b).
  destruct (apply_forward (S i) rest w1) as [[oks evs] w2]. simpl in *.
  intros [Hin|Hin]%elem_of_cons; [injection Hin as -> _; lia|].
  specialize (IH Hin). lia.
Qed.

Lemma fire_modified_from g : forall i oks w n,
  EvModified n ∈ (fire_modified i g oks w).1 -> (i <= n)%nat.
Proof.
  induction g as [|a rest IH]; intros i oks w n; simpl; [by intros ?%elem_of_nil|].
  destruct oks as [|b oks]; [by intros ?%elem_of_nil|].
  destruct b.
  - specialize (IH (S i) oks (OnModified a w) n).
    destruct (fire_modified (S i) rest oks (OnModified a w)) as [evs w1]. simpl in *.
    intros [Hin|Hin]%elem_of_cons; [injection Hin as ->; lia|].
    specialize (IH Hin). lia.
  - intros Hin. specialize (IH _ _ _ _ Hin). lia.
Qed.

(** Every command of the group is run once by Apply-Inverse, with the
    flag it returned in the log. *)
Lemma apply_inverse_events g : forall i w k,
  (k < length g)%nat ->
  exists ok, (apply_inverse i g w).1.1 !! k = Some ok /\
             EvUndo (i + k) ok ∈ (apply_inverse i g w).1.2.
Proof.
  induction g as [|a rest IH]; intros i w k Hk; simpl in *; [lia|].
  specialize (IH (S i) w).
  destruct (apply_inverse (S i) rest w) as [[oks evs] w1].
  destruct (Undo a w1) as [ok w2]. simpl in *.
  destruct k as [|k].
  - exists ok. split; [done|]. rewrite Nat.add_0_r.
    apply elem_of_app. right. by apply list_elem_of_singleton.
  - assert (k < length rest)%nat as Hk' by lia.
    destruct (IH k Hk') as (ok' & Hl & Hin).
    exists ok'. split; [done|].
    rewrite Nat.add_succ_r. apply elem_of_app. by left.
Qed.

Lemma apply_forward_events g : forall i w k,
  (k < length g)%nat ->
  exists ok, (apply_forward i g w).1.1 !! k = Some ok /\
             EvRedo (i + k) ok ∈ (apply_forward i g w).1.2.
Proof.
  induction g as [|a rest IH]; intros i w k Hk; simpl in *; [lia|].
  destruct (Redo a w) as [ok w1].
  specialize (IH (S i) w1).
  destruct (apply_forward (S i) rest w1) as [[oks evs] w2]. simpl in *.
  destruct k as [|k].
  - exists ok. split; [done|]. rewrite Nat.add_0_r. apply list_elem_of_here.
  - assert (k < length rest)%nat as Hk' by lia.
    destruct (IH k Hk') as (ok' & Hl & Hin).
    exists ok'. split; [done|].
    rewrite Nat.add_succ_r. by apply list_elem_of_further.
Qed.

(** The log of Apply-Inverse only mentions flags the commands returned. *)
Lemma apply_inverse_flag g : forall i w k ok,
  EvUndo (i + k) ok ∈ (apply_inverse i g w).1.2 ->
  (apply_inverse i g w).1.1 !! k = Some ok.
Proof.
  induction g as [|a rest IH]; intros i w k ok; simpl; [by intros ?%elem_of_nil|].
  specialize (IH (S i) w).
  pose proof (apply_inverse_from rest (S i) w) as Hfrom.
  destruct (apply_inverse (S i) rest w) as [[oks evs] w1].
  destruct (Undo a w1) as [ok' w2]. simpl in *.
  intros [Hin|Hin]%elem_of_app.
  - destruct k as [|k].
    + apply Hfrom in Hin. lia.
    + apply (IH k ok). rewrite Nat.add_succ_r in Hin. exact Hin.
  - apply list_elem_of_singleton in Hin. injection Hin as Hk ->.
    assert (k = 0%nat) as -> by lia. done.
Qed.

(** The log of Apply-Forward only mentions flags the commands returned. *)
Lemma apply_forward_flag g : forall i w k ok,
  EvRedo (i + k) ok ∈ (apply_forward i g w).1.2 ->
  (apply_forward i g w).1.1 !! k = Some ok.
Proof.
  induction g as [|a rest IH]; intros i w k ok; simpl; [by intros ?%elem_of_nil|].
  destruct (Redo a w) as [ok' w1].
  specialize (IH (S i) w1).
  pose proof (apply_forward_from rest (S i) w1) as Hfrom.
  destruct (apply_forward (S i) rest w1) as [[oks evs] w2]. simpl in *.
  intros [Hin|Hin]%elem_of_cons.
  - injection Hin as Hk ->. assert (k = 0%nat) as -> by lia. done.
  - destruct k as [|k].
    + apply Hfrom in Hin. lia.
    + apply (IH k ok). rewrite Nat.add_succ_r in Hin. exact Hin.
Qed.

(** A hook fires exactly for the positions whose flag is true. *)
Lemma fire_modified_events g : forall i oks w k,
  length oks = length g ->
  (EvModified (i + k) ∈ (fire_modified i g oks w).1 <-> oks !! k = Some true).
Proof.
  induction g as [|a rest IH]; intros i oks w k Hlen; simpl.
  - destruct oks; [|done]. split; [by intros ?%elem_of_nil | done].
  - destruct oks as [|b oks]; [done|]. simpl in Hlen.
    assert (length oks = length rest) as Hl by lia.
    destruct b.
    + specialize (IH (S i) oks (OnModified a w)).
      pose proof (fire_modified_from rest (S i) oks (OnModified a w)) as Hfrom.
      destruct (fire_modified (S i) rest oks (OnModified a w)) as [e w1]. simpl in *.
      destruct k as [|k]; simpl.
      * rewrite Nat.add_0_r. split; [done | intros _; apply list_elem_of_here].
      * rewrite <- (IH k Hl), Nat.add_succ_r.
        split; [|by apply list_elem_of_further].
        intros [Hin|Hin]%elem_of_cons; [injection Hin; lia | done].
    + destruct k as [|k]; simpl.
      * rewrite Nat.add_0_r. split; [|done].
        intros Hin%fire_modified_from. lia.
      * rewrite <- (IH (S i) oks w k Hl). by rewrite Nat.add_succ_r.
Qed.

Lemma apply_inverse_only g : forall i w e,
  e ∈ (apply_inverse i g w).1.2 -> exists n b, e = EvUndo n b.
Proof.
  induction g as [|a rest IH]; intros i w e; simpl; [by intros ?%elem_of_nil|].
  specialize (IH (S i) w e).
  destruct (apply_inverse (S i) rest w) as [[oks evs] w1].
  destruct (Undo a w1) as [ok w2]. simpl in *.
  intros [Hin|Hin]%elem_of_app; [by apply IH|].
  apply list_elem_of_singleton in Hin. eauto.
Qed.

Lemma apply_forward_only g : forall i w e,
  e ∈ (apply_forward i g w).1.2 -> exists n b, e = EvRedo n b.
Proof.
  induction g as [|a rest IH]; intros i w e; simpl; [by intros ?%elem_of_nil|].
  destruct (Redo a w) as [ok w1].
  specialize (IH (S i) w1 e).
  destruct (apply_forward (S i) rest w1) as [[oks evs] w2]. simpl in *.
  intros [Hin|Hin]%elem_of_cons; [eauto | by apply IH].
Qed.

Lemma fire_modified_only g : forall i oks w e,
  e ∈ (fire_modified i g oks w).1 -> exists n, e = EvModified n.
Proof.
  induction g as [|a rest IH]; intros i oks w e; simpl; [by intros ?%elem_of_nil|].
  destruct oks as [|b oks]; [by intros ?%elem_of_nil|].
  destruct b; [|apply IH].
  specialize (IH (S i) oks (OnModified a w) e).
  destruct (fire_modified (S i) rest oks (OnModified a w)) as [evs w1]. simpl in *.
  intros [Hin|Hin]%elem_of_cons; [eauto | by apply IH].
Qed.

Lemma group_at_middle (pre post : list (StateCollection World)) g s :
  stack_ s = pre ++ g :: post ->
  group_at s (Z.of_nat (length pre)) = g.
Proof.
  intros Hs. unfold group_at. rewrite decide_True by lia.
  rewrite Nat2Z.id, Hs. by rewrite list_lookup_middle.
Qed.

End ReplayFacts.

(** ** The tracking guard and the tracking flag *)

Section TrackingFacts.
Context {World Value : Type}.
Implicit Types (s : UndoStack World Value) (w : World).

Lemma run_calls_app (cs1 cs2 : list (Call (World:=World))) (sw : UndoStack World Value * World) :
  run_calls (cs1 ++ cs2) sw = run_calls cs2 (run_calls cs1 sw).
Proof. unfold run_calls. apply foldl_app. Qed.

(** C9. Whatever the tracking state was and whatever value is passed,
    building the guard sets the tracking flag to that value, and
    destroying it puts the flag back to what it was when the guard was
    built, whatever calls (SetTrackingEnabled among them) were made on
    the stack in between. *)
Theorem UndoTrackGuard_restores s w (track : bool) (cs : list Call) :
  let g := (UndoTrackGuard_new s track).1 in
  let s1 := (UndoTrackGuard_new s track).2 in
  IsTrackingEnabled s1 = track /\
  IsTrackingEnabled (UndoTrackGuard_delete g (run_calls cs (s1, w)).1)
    = IsTrackingEnabled s.
Proof. simpl. split; reflexivity. Qed.

(** C8 (as amended). While the tracking flag is false, Record changes
    nothing and returns the group it was given; Track changes nothing
    and returns a scope bound to no action, on which SetModified and
    the destructor change nothing either; Add returns the action it was
    given and appends it to the actions of the current frame, leaving
    the stored groups, the cursor, the flag and the value cache as they
    were. *)
Theorem tracking_disabled_calls `{EqDecision Value} s w
    (commands : StateCollection World) (action : UndoAction World)
    (hash : N) (current : Value) (onUndo : Setter World Value)
    (onRedo : option (Setter World Value)) (onModified : option (Modified World))
    (m active : bool) :
  trackingEnabled_ s = false ->
  UndoStack_Record commands s = (commands, s) /\
  (let sc := (Track hash current onUndo onRedo onModified s).1 in
   (Track hash current onUndo onRedo onModified s).2 = s /\
   action_ sc = false /\
   SetModified sc m s = s /\
   UndoValueScope_delete sc active s w = (s, w)) /\
  (Add action s).1 = action /\
  stack_ (Add action s).2 = stack_ s /\
  index_ (Add action s).2 = index_ s /\
  trackingEnabled_ (Add action s).2 = false /\
  workingValueCache_ (Add action s).2 = workingValueCache_ s /\
  currentFrameActions_ (Add action s).2 = currentFrameActions_ s ++ [action].
Proof.
  intros Hoff. unfold UndoStack_Record, Track. rewrite Hoff. simpl.
  repeat split; done.
Qed.

End TrackingFacts.

(** C8, counterexample. With the tracking flag false, Add still
    changes the actions pending for the current frame. *)
Lemma Add_ignores_tracking_flag :
  trackingEnabled_ suspended_stack = false /\
  currentFrameActions_ (Add noop_action suspended_stack).2
    <> currentFrameActions_ suspended_stack.
Proof. split; [reflexivity | discriminate]. Qed.

Lemma tracking_disabled_calls_witness :
  trackingEnabled_ suspended_stack = false /\
  currentFrameActions_ (Add noop_action suspended_stack).2
    = currentFrameActions_ suspended_stack ++ [noop_action].
Proof.
  split; [reflexivity|].
  apply (tracking_disabled_calls suspended_stack tt [] noop_action
           0%N tt (fun _ w => (true, w)) None None true false).
  reflexivity.
Defined.

(** ** The cursor *)

Section CursorFacts.
Context {World Value : Type}.
Implicit Types (s : UndoStack World Value) (w : World) (g : StateCollection World).

Lemma Undo_stack s w :
  stack (UndoStack_Undo s w) =
    if decide (index_ s = 0) then s else set_index (index_ s - 1) s.
Proof.
  unfold UndoStack_Undo. case_decide; [done|].
  destruct (apply_inverse _ _ _) as [[oks evs] w1].
  by destruct (fire_modified _ _ _ _).
Qed.

Lemma Undo_worked s w :
  worked (UndoStack_Undo s w) = bool_decide (index_ s <> 0).
Proof.
  unfold UndoStack_Undo. case_decide.
  - by rewrite bool_decide_false by tauto.
  - destruct (apply_inverse _ _ _) as [[oks evs] w1].
    destruct (fire_modified _ _ _ _). simpl. by rewrite bool_decide_true.
Qed.

Lemma Redo_stack s w :
  stack (UndoStack_Redo s w) =
    if decide (index_ s = Z.of_nat (length (stack_ s))) then s
    else set_index (index_ s + 1) s.
Proof.
  unfold UndoStack_Redo. case_decide; [done|].
  destruct (apply_forward _ _ _) as [[oks evs] w1].
  by destruct (fire_modified _ _ _ _).
Qed.

Lemma Redo_worked s w :
  worked (UndoStack_Redo s w) =
    bool_decide (index_ s <> Z.of_nat (length (stack_ s))).
Proof.
  unfold UndoStack_Redo. case_decide.
  - by rewrite bool_decide_false by tauto.
  - destruct (apply_forward _ _ _) as [[oks evs] w1].
    destruct (fire_modified _ _ _ _). simpl. by rewrite bool_decide_true.
Qed.

Lemma Record_stack g s :
  trackingEnabled_ s = true -> cursor_ok s ->
  stack_ (UndoStack_Record g s).2 = take (Z.to_nat (index_ s)) (stack_ s) ++ [g] /\
  index_ (UndoStack_Record g s).2 = Z.of_nat (length (stack_ (UndoStack_Record g s).2)).
Proof.
  intros Hon [H0 Hlen]. unfold UndoStack_Record. rewrite Hon. simpl.
  split; [done|]. rewrite length_app, length_take. simpl. lia.
Qed.

Lemma run_call_cursor_ok (c : Call) (sw : UndoStack World Value * World) :
  cursor_ok sw.1 -> cursor_ok (run_call c sw).1.
Proof.
  destruct sw as [s w]. unfold cursor_ok. intros Hok.
  destruct c; simpl in *; try done.
  - unfold UndoStack_Record. destruct (trackingEnabled_ s); simpl; [|done].
    rewrite length_app, length_take. simpl. lia.
  - rewrite Undo_stack. case_decide; simpl; lia.
  - rewrite Redo_stack. case_decide; simpl; lia.
Qed.

(** C6. Every operation keeps the cursor between 0 and the number of
    groups; under that invariant Undo performs work iff the cursor is
    above 0 and Redo iff the cursor is below the number of groups, and
    a call that performs no work leaves the history and the document
    as they were. *)
Theorem cursor_invariant s w (c : Call) :
  cursor_ok s ->
  cursor_ok (run_call c (s, w)).1 /\
  (worked (UndoStack_Undo s w) = true <-> 0 < index_ s) /\
  (worked (UndoStack_Redo s w) = true <-> index_ s < Z.of_nat (length (stack_ s))) /\
  (worked (UndoStack_Undo s w) = false ->
     stack (UndoStack_Undo s w) = s /\ world (UndoStack_Undo s w) = w) /\
  (worked (UndoStack_Redo s w) = false ->
     stack (UndoStack_Redo s w) = s /\ world (UndoStack_Redo s w) = w).
Proof.
  intros Hok. split; [by apply (run_call_cursor_ok c (s, w))|].
  destruct Hok as [H0 Hlen].
  rewrite Undo_worked, Redo_worked.
  rewrite !bool_decide_eq_true, !bool_decide_eq_false.
  split; [lia|]. split; [lia|]. split.
  - intros Hz. unfold UndoStack_Undo. rewrite decide_True by lia. done.
  - intros Hz. unfold UndoStack_Redo. rewrite decide_True by lia. done.
Qed.

Lemma cursor_at_end_no_undo (cs : list Call) : forall (sw : UndoStack World Value * World),
  Forall (fun c => c <> CallUndo) cs ->
  index_ sw.1 = Z.of_nat (length (stack_ sw.1)) ->
  index_ (run_calls cs sw).1 = Z.of_nat (length (stack_ (run_calls cs sw).1)).
Proof.
  induction cs as [|c cs IH]; intros [s w] Hno Hend; [done|].
  apply Forall_cons in Hno as [Hc Hno].
  change (run_calls (c :: cs) (s, w)) with (run_calls cs (run_call c (s, w))).
  apply IH; [done|]. simpl in Hend.
  destruct c; simpl; try done.
  - unfold UndoStack_Record. destruct (trackingEnabled_ s); simpl; [|done].
    rewrite length_app, length_take. simpl. lia.
  - rewrite Redo_stack. by rewrite decide_True.
Qed.

(** C5 (as amended). Recording a group while the cursor is below the
    number of groups drops the groups at and after the cursor before
    the new group is appended, and from then on Redo (which is declared
    void and returns nothing) has no work and changes nothing, until an
    Undo moves the cursor back below the end: whatever calls other than
    Undo are made after the recording, Redo still has nothing to do. *)
Theorem Record_discards_redo s w g (cs : list Call) :
  trackingEnabled_ s = true ->
  cursor_ok s ->
  index_ s < Z.of_nat (length (stack_ s)) ->
  Forall (fun c => c <> CallUndo) cs ->
  let s' := (UndoStack_Record g s).2 in
  stack_ s' = take (Z.to_nat (index_ s)) (stack_ s) ++ [g] /\
  length (stack_ s') = S (Z.to_nat (index_ s)) /\
  (forall i, (i < Z.to_nat (index_ s))%nat -> stack_ s' !! i = stack_ s !! i) /\
  worked (UndoStack_Redo s' w) = false /\
  (let sw := run_calls cs (s', w) in
   worked (UndoStack_Redo sw.1 sw.2) = false /\
   stack (UndoStack_Redo sw.1 sw.2) = sw.1 /\
   world (UndoStack_Redo sw.1 sw.2) = sw.2).
Proof.
  intros Hon Hok Hlt Hno s'.
  destruct (Record_stack g s Hon Hok) as [Hst Hidx]. fold s' in Hst, Hidx.
  destruct Hok as [H0 Hlen].
  split; [done|]. split.
  { rewrite Hst, length_app, length_take. simpl. lia. }
  split.
  { intros i Hi. rewrite Hst. rewrite lookup_app_l by (rewrite length_take; lia).
    by rewrite lookup_take_lt. }
  split.
  { rewrite Redo_worked. apply bool_decide_eq_false. tauto. }
  pose proof (cursor_at_end_no_undo cs (s', w) Hno Hidx) as Hend.
  simpl. rewrite Redo_worked. split; [apply bool_decide_eq_false; tauto|].
  unfold UndoStack_Redo. by rewrite decide_True.
Qed.

End CursorFacts.

Lemma cursor_invariant_witness :
  cursor_ok (run_call (CallRecord [edit_value 3 7]) (two_groups_stack, 3)).1 /\
  (worked (UndoStack_Undo two_groups_stack 3) = true <-> 0 < 1).
Proof.
  destruct (cursor_invariant two_groups_stack 3 (CallRecord [edit_value 3 7]))
    as (Hinv & Hundo & _).
  - unfold cursor_ok. simpl. lia.
  - split; [exact Hinv | exact Hundo].
Defined.

(** C5, counterexample. After the recording the Redo call does not
    return false: the member function is declared void and returns
    nothing. *)
Lemma Redo_returns_no_boolean :
  index_ two_groups_stack < Z.of_nat (length (stack_ two_groups_stack)) /\
  returned (UndoStack_Redo (UndoStack_Record [edit_value 3 7] two_groups_stack).2 7)
    <> ReturnsBool false.
Proof. split; [simpl; lia | discriminate]. Qed.

Lemma Record_discards_redo_witness :
  stack_ (UndoStack_Record [edit_value 3 7] two_groups_stack).2
    = [[edit_value 0 3]; [edit_value 3 7]] /\
  worked (UndoStack_Redo (UndoStack_Record [edit_value 3 7] two_groups_stack).2 7) = false.
Proof.
  destruct (Record_discards_redo two_groups_stack 7 [edit_value 3 7] [CallRedo; CallClear])
    as (Hst & _ & _ & Hredo & _).
  - reflexivity.
  - unfold cursor_ok. simpl. lia.
  - simpl. lia.
  - repeat constructor; discriminate.
  - split; [exact Hst | exact Hredo].
Defined.

(** ** Replaying a group *)

Section GroupFacts.
Context {World Value : Type}.
Implicit Types (s : UndoStack World Value) (w : World) (g : StateCollection World).

(** C2 (as amended). Undo is declared void and returns nothing. At
    cursor 0 it has no work and changes nothing. Otherwise it moves the
    cursor down by one and runs every command of the group found
    there, also when commands of the group report failure, and the
    OnModified hook of every command that reported success fires. *)
Theorem Undo_tolerates_failures s w :
  returned (UndoStack_Undo s w) = ReturnsVoid /\
  (index_ s = 0 ->
     worked (UndoStack_Undo s w) = false /\
     trace (UndoStack_Undo s w) = [] /\
     stack (UndoStack_Undo s w) = s /\
     world (UndoStack_Undo s w) = w) /\
  (index_ s <> 0 ->
     let r := UndoStack_Undo s w in
     let g := group_at (stack r) (index_ s - 1) in
     worked r = true /\
     index_ (stack r) = index_ s - 1 /\
     stack_ (stack r) = stack_ s /\
     (forall i, (i < length g)%nat -> exists ok, EvUndo i ok ∈ trace r) /\
     (forall i, EvUndo i true ∈ trace r -> EvModified i ∈ trace r)).
Proof.
  split; [|split].
  - unfold UndoStack_Undo. case_decide; [done|].
    destruct (apply_inverse _ _ _) as [[oks evs] w1].
    by destruct (fire_modified _ _ _ _).
  - intros Hz. unfold UndoStack_Undo. by rewrite decide_True.
  - intros Hnz. simpl. rewrite Undo_stack, Undo_worked.
    rewrite decide_False by done. rewrite bool_decide_true by done.
    split; [done|]. split; [done|]. split; [done|].
    unfold UndoStack_Undo. rewrite decide_False by done. simpl.
    set (g := group_at _ _).
    pose proof (apply_inverse_length g 0 w) as Hlen.
    pose proof (apply_inverse_events g 0 w) as Hev.
    pose proof (apply_inverse_flag g 0 w) as Hfl.
    destruct (apply_inverse 0 g w) as [[oks evs] w1]. simpl in *.
    pose proof (fun k => fire_modified_events g 0 oks w1 k Hlen) as Hmod.
    pose proof (fire_modified_only g 0 oks w1) as Honly'.
    destruct (fire_modified 0 g oks w1) as [hooks w2]. simpl in *.
    assert (forall i b, EvUndo i b ∈ evs ++ hooks -> oks !! i = Some b) as Hflag.
    { intros i b [Hin|Hin]%elem_of_app; [by apply Hfl|].
      apply Honly' in Hin as [n Hn]. discriminate. }
    split.
    + intros i Hi. destruct (Hev i Hi) as (ok & _ & Hin).
      exists ok. apply elem_of_app. by left.
    + intros i Hin%Hflag. apply elem_of_app. right. by apply Hmod.
Qed.

(** In the model a hook fires only for a command that reported
    success. *)
Lemma Undo_skips_failed_hooks s w (i : nat) :
  EvUndo i false ∈ trace (UndoStack_Undo s w) ->
  EvModified i ∉ trace (UndoStack_Undo s w).
Proof.
  unfold UndoStack_Undo. case_decide; [by intros ?%elem_of_nil|].
  simpl. set (g := group_at _ _).
  pose proof (apply_inverse_length g 0 w) as Hlen.
  pose proof (apply_inverse_flag g 0 w) as Hfl.
  pose proof (apply_inverse_only g 0 w) as Honly.
  destruct (apply_inverse 0 g w) as [[oks evs] w1]. simpl in *.
  pose proof (fun k => fire_modified_events g 0 oks w1 k Hlen) as Hmod.
  pose proof (fire_modified_only g 0 oks w1) as Honly'.
  destruct (fire_modified 0 g oks w1) as [hooks w2]. simpl in *.
  intros [Hin|Hin]%elem_of_app.
  - apply Hfl in Hin. intros [Hm|Hm]%elem_of_app.
    + apply Honly in Hm as (n & b & Hn). discriminate.
    + apply Hmod in Hm. congruence.
  - apply Honly' in Hin as [n Hn]. discriminate.
Qed.

(** The whole of an Undo call whose cursor sits just after group [g]. *)
Lemma Undo_at (pre post : list (StateCollection World)) g s w :
  stack_ s = pre ++ g :: post ->
  index_ s = Z.of_nat (length pre) + 1 ->
  stack (UndoStack_Undo s w) = set_index (Z.of_nat (length pre)) s /\
  world (UndoStack_Undo s w) = group_undo g w /\
  trace (UndoStack_Undo s w) =
    (apply_inverse 0 g w).1.2 ++
    (fire_modified 0 g (apply_inverse 0 g w).1.1 (apply_inverse 0 g w).2).1.
Proof.
  intros Hst Hidx. unfold UndoStack_Undo, group_undo.
  rewrite decide_False by lia.
  replace (index_ s - 1) with (Z.of_nat (length pre)) by lia. simpl.
  rewrite (group_at_middle pre post g (set_index _ s) Hst).
  destruct (apply_inverse 0 g w) as [[oks evs] w1]. simpl.
  destruct (fire_modified 0 g oks w1) as [hooks w2]. simpl.
  split; [reflexivity | split; reflexivity].
Qed.

(** The whole of a Redo call whose cursor sits just before group [g]. *)
Lemma Redo_at (pre post : list (StateCollection World)) g s w :
  stack_ s = pre ++ g :: post ->
  index_ s = Z.of_nat (length pre) ->
  stack (UndoStack_Redo s w) = set_index (Z.of_nat (length pre) + 1) s /\
  world (UndoStack_Redo s w) =
    (fire_modified 0 g (apply_forward 0 g w).1.1 (apply_forward 0 g w).2).2 /\
  trace (UndoStack_Redo s w) =
    (apply_forward 0 g w).1.2 ++
    (fire_modified 0 g (apply_forward 0 g w).1.1 (apply_forward 0 g w).2).1.
Proof.
  intros Hst Hidx. unfold UndoStack_Redo.
  rewrite decide_False.
  2:{ rewrite Hst, length_app. simpl. lia. }
  rewrite Hidx. rewrite (group_at_middle pre post g) by done.
  destruct (apply_forward 0 g w) as [[oks evs] w1]. simpl.
  destruct (fire_modified 0 g oks w1) as [hooks w2]. simpl.
  split; [reflexivity | split; reflexivity].
Qed.

(** C3. For a group of three commands A, B, C recorded in that order,
    one Undo call runs the inverse of C, then of B, then of A, each on
    the document the previous one left; one Redo call runs A, then B,
    then C forwards. The hooks come after the three commands. *)
Theorem group_of_three_order (pre post : list (StateCollection World))
    (A B C : UndoAction World) (tr : bool) (cf : StateCollection World)
    (cache : gmap N (UndoCustomAction World Value)) w :
  let after := {| stack_ := pre ++ [A; B; C] :: post;
                  index_ := Z.of_nat (length pre) + 1;
                  trackingEnabled_ := tr; currentFrameActions_ := cf;
                  workingValueCache_ := cache |} in
  let before := {| stack_ := pre ++ [A; B; C] :: post;
                   index_ := Z.of_nat (length pre);
                   trackingEnabled_ := tr; currentFrameActions_ := cf;
                   workingValueCache_ := cache |} in
  let uC := Undo C w in
  let uB := Undo B uC.2 in
  let uA := Undo A uB.2 in
  let rA := Redo A w in
  let rB := Redo B rA.2 in
  let rC := Redo C rB.2 in
  (trace (UndoStack_Undo after w) =
     [EvUndo 2 uC.1; EvUndo 1 uB.1; EvUndo 0 uA.1]
     ++ (fire_modified 0 [A; B; C] [uA.1; uB.1; uC.1] uA.2).1 /\
   world (UndoStack_Undo after w) =
     (fire_modified 0 [A; B; C] [uA.1; uB.1; uC.1] uA.2).2 /\
   stack (UndoStack_Undo after w) = before) /\
  (trace (UndoStack_Redo before w) =
     [EvRedo 0 rA.1; EvRedo 1 rB.1; EvRedo 2 rC.1]
     ++ (fire_modified 0 [A; B; C] [rA.1; rB.1; rC.1] rC.2).1 /\
   world (UndoStack_Redo before w) =
     (fire_modified 0 [A; B; C] [rA.1; rB.1; rC.1] rC.2).2 /\
   stack (UndoStack_Redo before w) = after).
Proof.
  intros after before uC uB uA rA rB rC. split.
  - destruct (Undo_at pre post [A; B; C] after w eq_refl eq_refl) as (Hs & Hw & Ht).
    rewrite Hs, Hw, Ht. unfold group_undo. simpl.
    fold uC. destruct uC as [okC wC] eqn:EC. simpl in uB.
    fold uB. destruct uB as [okB wB] eqn:EB. simpl in uA.
    fold uA. destruct uA as [okA wA] eqn:EA. simpl.
    repeat split; reflexivity.
  - destruct (Redo_at pre post [A; B; C] before w eq_refl eq_refl) as (Hs & Hw & Ht).
    rewrite Hs, Hw, Ht. simpl.
    fold rA. destruct rA as [okA wA] eqn:EA. simpl in rB.
    fold rB. destruct rB as [okB wB] eqn:EB. simpl in rC.
    fold rC. destruct rC as [okC wC] eqn:EC. simpl.
    repeat split; reflexivity.
Qed.

End GroupFacts.

(** C2, counterexample. At cursor 0 the call does not return false:
    the member function is declared void and returns nothing. *)
Lemma Undo_returns_no_boolean :
  index_ fresh_stack = 0 /\
  returned (UndoStack_Undo fresh_stack 0) <> ReturnsBool false.
Proof. split; [reflexivity | discriminate]. Qed.

Lemma Undo_tolerates_failures_witness :
  worked (UndoStack_Undo mixed_group_stack 3) = true /\
  EvUndo 1 false ∈ trace (UndoStack_Undo mixed_group_stack 3) /\
  EvModified 0 ∈ trace (UndoStack_Undo mixed_group_stack 3).
Proof.
  destruct (Undo_tolerates_failures mixed_group_stack 3) as (_ & _ & Hrun).
  destruct Hrun as (Hres & _ & _ & _ & Hok).
  - simpl. lia.
  - assert (EvUndo 1 false ∈ trace (UndoStack_Undo mixed_group_stack 3)) as H1
      by (vm_compute; apply list_elem_of_here).
    assert (EvUndo 0 true ∈ trace (UndoStack_Undo mixed_group_stack 3)) as H0
      by (vm_compute; apply list_elem_of_further, list_elem_of_here).
    split; [exact Hres|]. split; [exact H1 | exact (Hok 0%nat H0)].
Defined.

(** ** The round trip *)

Section RoundTrip.
Context {World Value : Type}.
Implicit Types (s : UndoStack World Value) (w : World) (g : StateCollection World).
Implicit Types (gs : list (StateCollection World)).

Lemma edit_steps_cons g gs (sw : UndoStack World Value * World) :
  edit_steps (g :: gs) sw = edit_steps gs (edit_and_record g sw).
Proof. reflexivity. Qed.

Lemma edit_and_record_on g s w :
  trackingEnabled_ s = true ->
  trackingEnabled_ (edit_and_record g (s, w)).1 = true /\
  stack_ (edit_and_record g (s, w)).1 = take (Z.to_nat (index_ s)) (stack_ s) ++ [g] /\
  index_ (edit_and_record g (s, w)).1 = index_ s + 1 /\
  (edit_and_record g (s, w)).2 = group_forward g w.
Proof.
  intros Hon. unfold edit_and_record, UndoStack_Record. simpl. rewrite Hon. done.
Qed.

Lemma edit_steps_at_end gs : forall s w,
  trackingEnabled_ s = true ->
  index_ s = Z.of_nat (length (stack_ s)) ->
  stack_ (edit_steps gs (s, w)).1 = stack_ s ++ gs /\
  index_ (edit_steps gs (s, w)).1 = index_ s + Z.of_nat (length gs) /\
  (edit_steps gs (s, w)).2 = forward_all gs w.
Proof.
  induction gs as [|g gs IH]; intros s w Hon Hend.
  - simpl. rewrite app_nil_r. repeat split; lia.
  - rewrite edit_steps_cons.
    destruct (edit_and_record_on g s w Hon) as (Hon1 & Hst1 & Hidx1 & Hw1).
    destruct (edit_and_record g (s, w)) as [s1 w1]. simpl in Hon1, Hst1, Hidx1, Hw1.
    destruct (IH s1 w1 Hon1) as (Hst & Hidx & Hw).
    { rewrite Hst1, Hidx1, length_app, length_take. simpl. lia. }
    rewrite Hst, Hidx, Hw, Hst1, Hidx1, Hw1.
    rewrite take_ge by lia. rewrite <- app_assoc. simpl.
    repeat split; lia.
Qed.

Lemma edit_steps_shape g gs s w :
  trackingEnabled_ s = true -> cursor_ok s ->
  stack_ (edit_steps (g :: gs) (s, w)).1
    = take (Z.to_nat (index_ s)) (stack_ s) ++ g :: gs /\
  index_ (edit_steps (g :: gs) (s, w)).1 = index_ s + Z.of_nat (length (g :: gs)) /\
  (edit_steps (g :: gs) (s, w)).2 = forward_all (g :: gs) w.
Proof.
  intros Hon [H0 Hlen]. rewrite edit_steps_cons.
  destruct (edit_and_record_on g s w Hon) as (Hon1 & Hst1 & Hidx1 & Hw1).
  destruct (edit_and_record g (s, w)) as [s1 w1]. simpl in Hon1, Hst1, Hidx1, Hw1.
  destruct (edit_steps_at_end gs s1 w1 Hon1) as (Hst & Hidx & Hw).
  { rewrite Hst1, Hidx1, length_app, length_take. simpl. lia. }
  rewrite Hst, Hidx, Hw, Hst1, Hidx1, Hw1. rewrite <- app_assoc. simpl.
  repeat split; lia.
Qed.

Lemma groups_unwind_snoc gs : forall g w,
  groups_unwind (gs ++ [g]) w <->
  groups_unwind gs w /\
  group_undo g (group_forward g (forward_all gs w)) = forward_all gs w.
Proof.
  induction gs as [|g' gs IH]; intros g w; simpl.
  - tauto.
  - rewrite IH. tauto.
Qed.

Lemma undo_times_succ (n : nat) (sw : UndoStack World Value * World) :
  undo_times (S n) sw = undo_times n (run_call CallUndo sw).
Proof. unfold undo_times. apply Nat.iter_succ_r. Qed.

Lemma undo_times_unwinds gs : forall pre post s w,
  stack_ s = pre ++ gs ++ post ->
  index_ s = Z.of_nat (length pre) + Z.of_nat (length gs) ->
  groups_unwind gs w ->
  undo_times (length gs) (s, forward_all gs w)
    = (set_index (Z.of_nat (length pre)) s, w).
Proof.
  induction gs as [|g gs IH] using rev_ind; intros pre post s w Hst Hidx Hrev.
  - simpl in *. f_equal. destruct s; unfold set_index; simpl in *. f_equal. lia.
  - apply groups_unwind_snoc in Hrev as [Hrev Hg].
    rewrite length_app in *. simpl in *.
    replace (length gs + 1)%nat with (S (length gs)) by lia.
    rewrite undo_times_succ. simpl.
    destruct (Undo_at (pre ++ gs) post g s
                (forward_all (gs ++ [g]) w)) as (Hs & Hw & _).
    { rewrite Hst. by rewrite <- !app_assoc. }
    { rewrite length_app. lia. }
    rewrite Hs, Hw.
    unfold forward_all at 1. rewrite foldl_snoc. fold (forward_all gs w).
    rewrite Hg.
    rewrite (IH pre (g :: post)); [ | | | done].
    + done.
    + simpl. rewrite Hst. by rewrite <- app_assoc.
    + simpl. rewrite length_app. lia.
Qed.

(** Apply-Inverse runs backwards through the documents the group went
    through forwards: when every command is a reversible edit where it
    was applied, it ends on the document the group started from. *)
Lemma apply_inverse_unwinds g : forall (i : nat) w,
  commands_reversible g w ->
  (apply_inverse i g (group_forward g w)).2 = w.
Proof.
  induction g as [|a rest IH]; intros i w Hrev; [done|].
  destruct Hrev as [Ha Hrest].
  change (group_forward (a :: rest) w) with (group_forward rest (Redo a w).2).
  simpl. specialize (IH (S i) _ Hrest).
  destruct (apply_inverse (S i) rest (group_forward rest (Redo a w).2)) as [[oks evs] w1].
  simpl in IH. subst w1.
  destruct (Undo a (Redo a w).2) as [ok w2]. exact Ha.
Qed.

Lemma fire_modified_keeps g : forall (i : nat) (oks : list bool) w,
  hooks_keep g w ->
  (fire_modified i g oks w).2 = w.
Proof.
  induction g as [|a rest IH]; intros i oks w Hkeep; [done|].
  apply Forall_cons in Hkeep as [Ha Hrest]. simpl.
  destruct oks as [|[|] oks]; [done| |by apply IH].
  rewrite Ha. specialize (IH (S i) oks w Hrest).
  by destruct (fire_modified (S i) rest oks w).
Qed.

Lemma group_undo_unwinds g w :
  commands_reversible g w -> hooks_keep g w ->
  group_undo g (group_forward g w) = w.
Proof.
  intros Hrev Hkeep. unfold group_undo.
  pose proof (apply_inverse_unwinds g 0 w Hrev) as Hw.
  destruct (apply_inverse 0 g (group_forward g w)) as [[oks evs] w1].
  simpl in Hw. subst w1. by apply fire_modified_keeps.
Qed.

Lemma edits_reversible_unwind gs : forall w,
  edits_reversible gs w -> groups_unwind gs w.
Proof.
  induction gs as [|g gs IH]; intros w; simpl; [done|].
  intros (Hrev & Hkeep & Hrest). split; [by apply group_undo_unwinds | by apply IH].
Qed.

(** C4 (as amended). Take any number N of edit steps, each of which
    changes the document by the forward operations of its group of
    commands, in insertion order, and records that group, on a history
    with tracking on. If every command is a reversible edit where it is
    applied (its inverse, run on the document its forward operation
    left, gives back the document that operation started from), the
    hooks leave the document alone and nothing else touches it, then N
    Undo calls give back the document as it was before the first edit,
    and the cursor is back where it was. *)
Theorem edits_then_undos_roundtrip gs s w :
  trackingEnabled_ s = true ->
  cursor_ok s ->
  edits_reversible gs w ->
  (undo_times (length gs) (edit_steps gs (s, w))).2 = w /\
  index_ (undo_times (length gs) (edit_steps gs (s, w))).1 = index_ s.
Proof.
  intros Hon Hok Hrev%edits_reversible_unwind. destruct gs as [|g gs]; [done|].
  destruct (edit_steps_shape g gs s w Hon Hok) as (Hst & Hidx & Hw).
  destruct (edit_steps (g :: gs) (s, w)) as [s' w'] eqn:E.
  cbn [fst snd] in Hst, Hidx, Hw.
  subst w'. destruct Hok as [H0 Hlen].
  rewrite (undo_times_unwinds (g :: gs) (take (Z.to_nat (index_ s)) (stack_ s)) [] s' w).
  - simpl. rewrite length_take. split; [done | lia].
  - by rewrite app_nil_r.
  - rewrite Hidx, length_take. simpl. lia.
  - done.
Qed.

End RoundTrip.

(** C4, counterexample. The law as stated does not hold for every
    sequence of Record calls. While tracking is off a Record call
    stores nothing, so the Undo call after the edit 3 -> 7 takes back
    the older edit 0 -> 3 and leaves 0, which is neither the document
    before the edit (3) nor the one before the Record call (7). With
    tracking on, a command that did not capture the value its edit
    started from (the edit from 7 recorded as 0 -> 3) is undone to 0,
    and a hook that writes the document leaves 1000 where the edit
    started from 0. *)
Lemma Record_then_Undo_changes_document :
  (let off := SetTrackingEnabled false two_groups_stack in
   (undo_times 1 (edit_steps [[edit_value 3 7]] (off, 3))).2 = 0 /\
   (undo_times 1 (run_calls [CallRecord [edit_value 3 7]] (off, 7))).2 = 0) /\
  (undo_times 1 (edit_steps [[edit_value 0 3]] (fresh_stack, 7))).2 = 0 /\
  (undo_times 1 (edit_steps [[noisy_edit 0 3]] (fresh_stack, 0))).2 = 1000.
Proof. vm_compute. repeat split; reflexivity. Qed.

Lemma edits_then_undos_roundtrip_witness :
  (undo_times 2 (edit_steps [[edit_value 0 3]; [edit_value 3 5; edit_value 5 4]]
                            (fresh_stack, 0))).2 = 0.
Proof.
  apply (edits_then_undos_roundtrip
           [[edit_value 0 3]; [edit_value 3 5; edit_value 5 4]] fresh_stack 0).
  - reflexivity.
  - unfold cursor_ok. simpl. lia.
  - simpl. unfold hooks_keep. repeat split; try reflexivity; repeat constructor.
Defined.

(** ** Continuous edits *)

Section ContinuousEdit.
Context {World Value : Type} `{EqDecision Value}.
Context (hash : N) (onUndo : Setter World Value)
        (onRedo : option (Setter World Value)) (onModified : option (Modified World)).
Implicit Types (s : UndoStack World Value) (w : World) (p : Pass (Value:=Value)).
Implicit Types (a : UndoCustomAction World Value).

Lemma run_pass_tracked p s w :
  trackingEnabled_ s = true ->
  run_pass hash onUndo onRedo onModified p (s, w) =
    Some (UndoValueScope_delete {| scope_stack_ := true; hash_ := hash; action_ := true |}
            (pass_active p)
            (set_cache
               (<[hash := pass_entry onUndo onRedo onModified p (workingValueCache_ s !! hash)]>
                  (workingValueCache_ s)) s) w).
Proof.
  intros Hon. unfold run_pass, Track, ValueCache_Get. simpl. rewrite Hon. simpl.
  unfold pass_entry, pass_value.
  destruct (workingValueCache_ s !! hash) as [a|] eqn:Hc; simpl;
    unfold UndoValueScope_load, UndoValueScope_store, SetModified; simpl;
    rewrite lookup_insert_eq; simpl;
    destruct (pass_edit p) as [v|]; simpl;
    rewrite ?insert_insert_eq, ?alter_insert_eq; reflexivity.
Qed.

(** A pass while an item is active keeps the entry in the cache and
    records nothing; it writes the value to the document when the
    value differs from the initial one. *)
Lemma run_pass_active p s w :
  trackingEnabled_ s = true ->
  pass_active p = true ->
  let a := pass_entry onUndo onRedo onModified p (workingValueCache_ s !! hash) in
  run_pass hash onUndo onRedo onModified p (s, w) =
    Some (set_cache (<[hash := a]> (workingValueCache_ s)) s,
          if decide (initial_ a = current_ a) then w
          else (UndoCustomAction_Redo a w).2).
Proof.
  intros Hon Hact a. rewrite run_pass_tracked by done. rewrite Hact. fold a.
  unfold UndoValueScope_delete. cbn [scope_stack_ action_ hash_ negb orb].
  cbn [workingValueCache_ set_cache]. rewrite lookup_insert_eq.
  by destruct (decide (initial_ a = current_ a)).
Qed.

Lemma run_passes_cons p (ps : list Pass) (sw r : UndoStack World Value * World) :
  run_pass hash onUndo onRedo onModified p sw = Some r ->
  run_passes hash onUndo onRedo onModified (p :: ps) sw =
    run_passes hash onUndo onRedo onModified ps r.
Proof. intros Hr. unfold run_passes. simpl. by rewrite Hr. Qed.

Lemma run_passes_snoc (ps : list Pass) p (sw : UndoStack World Value * World) :
  run_passes hash onUndo onRedo onModified (ps ++ [p]) sw =
    run_passes hash onUndo onRedo onModified ps sw
      ≫= run_pass hash onUndo onRedo onModified p.
Proof. unfold run_passes. by rewrite foldl_snoc. Qed.

Lemma run_passes_active (ps : list Pass) : forall s w,
  trackingEnabled_ s = true ->
  Forall (fun p => pass_active p = true) ps ->
  exists r,
    run_passes hash onUndo onRedo onModified ps (s, w) = Some r /\
    stack_ r.1 = stack_ s /\ index_ r.1 = index_ s /\
    trackingEnabled_ r.1 = true /\
    currentFrameActions_ r.1 = currentFrameActions_ s /\
    workingValueCache_ r.1 !! hash
      = entry_after onUndo onRedo onModified ps (workingValueCache_ s !! hash).
Proof.
  induction ps as [|p ps IH]; intros s w Hon Hact; [by exists (s, w)|].
  apply Forall_cons in Hact as [Hp Hact].
  pose proof (run_pass_active p s w Hon Hp) as Hs1. cbv zeta in Hs1.
  rewrite (run_passes_cons p ps _ _ Hs1).
  match goal with |- context [run_passes _ _ _ _ ps (?s1, ?w1)] =>
    destruct (IH s1 w1 Hon Hact) as (r & Hr & H1 & H2 & H3 & H4 & H5) end.
  exists r. simpl in *. rewrite lookup_insert_eq in H5. done.
Qed.

Lemma entry_after_fields (ps : list Pass) : forall a,
  exists a', entry_after onUndo onRedo onModified ps (Some a) = Some a' /\
    initial_ a' = initial_ a /\
    current_ a' = default (current_ a) (pass_value <$> last ps) /\
    modified_ a' = modified_ a || existsb pass_modified ps /\
    onUndo_ a' = onUndo_ a /\ onRedo_ a' = onRedo_ a /\ onModified_ a' = onModified_ a.
Proof.
  induction ps as [|p ps IH]; intros a.
  - exists a. simpl. rewrite orb_false_r. done.
  - simpl entry_after.
    destruct (IH (pass_entry onUndo onRedo onModified p (Some a)))
      as (a' & E & Hi & Hc & Hm & H1 & H2 & H3).
    exists a'. rewrite E, Hi, Hm, H1, H2, H3, Hc. rewrite last_cons.
    destruct (last ps); simpl; rewrite orb_assoc; done.
Qed.

(** What the cache holds under [hash] once the passes [ps] are over,
    when it held nothing there before: the initial value is the one
    the first pass was given. *)
Lemma entry_after_fresh p (ps : list Pass) :
  exists a', entry_after onUndo onRedo onModified (p :: ps) None = Some a' /\
    initial_ a' = pass_current p /\
    current_ a' = pass_value (default p (last ps)) /\
    modified_ a' = existsb pass_modified (p :: ps) /\
    onUndo_ a' = onUndo /\ onRedo_ a' = onRedo /\ onModified_ a' = onModified.
Proof.
  simpl entry_after.
  destruct (entry_after_fields ps (pass_entry onUndo onRedo onModified p None))
    as (a' & E & Hi & Hc & Hm & H1 & H2 & H3).
  exists a'. rewrite E, Hi, Hm, H1, H2, H3, Hc.
  destruct (last ps); done.
Qed.

Lemma final_entry_fields (drag : list Pass) (settle : Pass) :
  let a := pass_entry onUndo onRedo onModified settle
             (entry_after onUndo onRedo onModified drag None) in
  initial_ a = pass_current (default settle (head drag)) /\
  current_ a = pass_value settle /\
  modified_ a = existsb pass_modified (drag ++ [settle]) /\
  onUndo_ a = onUndo /\ onRedo_ a = onRedo /\ onModified_ a = onModified.
Proof.
  destruct drag as [|p ps].
  - simpl. rewrite orb_false_r. done.
  - destruct (entry_after_fresh p ps) as (a' & E & Hi & Hc & Hm & H1 & H2 & H3).
    rewrite E. cbn [head default]. simpl pass_entry.
    unfold pass_entry. simpl.
    rewrite Hi, H1, H2, H3, Hm.
    change (p :: ps ++ [settle]) with ((p :: ps) ++ [settle]).
    rewrite existsb_app. simpl. rewrite orb_false_r, orb_assoc. done.
Qed.

(** C7. A tracker that starts from nothing in the cache, goes through
    any number of passes while an item is active, and then sees a pass
    with no item active whose value differs from the value the first
    pass started with, records nothing during the active passes. At the
    last pass it records exactly one action, holding the first value as
    initial and the last value as current, if some pass flagged a user
    modification, and takes the entry out of the cache. If no pass
    flagged one, it records nothing and keeps the entry with its
    initial value moved to the current value. *)
Theorem continuous_edit_records_once (drag : list Pass) (settle : Pass) s w :
  trackingEnabled_ s = true ->
  workingValueCache_ s !! hash = None ->
  Forall (fun p => pass_active p = true) drag ->
  pass_active settle = false ->
  let v0 := pass_current (default settle (head drag)) in
  let vf := pass_value settle in
  let flagged := existsb pass_modified (drag ++ [settle]) in
  v0 <> vf ->
  exists mid fin,
    run_passes hash onUndo onRedo onModified drag (s, w) = Some mid /\
    run_passes hash onUndo onRedo onModified (drag ++ [settle]) (s, w) = Some fin /\
    currentFrameActions_ mid.1 = currentFrameActions_ s /\
    stack_ fin.1 = stack_ s /\
    index_ fin.1 = index_ s /\
    (flagged = true ->
       currentFrameActions_ fin.1 =
         currentFrameActions_ s ++
         [as_action {| initial_ := v0; current_ := vf; modified_ := true;
                       onUndo_ := onUndo; onRedo_ := onRedo;
                       onModified_ := onModified |}] /\
       workingValueCache_ fin.1 !! hash = None) /\
    (flagged = false ->
       currentFrameActions_ fin.1 = currentFrameActions_ s /\
       workingValueCache_ fin.1 !! hash =
         Some {| initial_ := vf; current_ := vf; modified_ := false;
                 onUndo_ := onUndo; onRedo_ := onRedo;
                 onModified_ := onModified |}).
Proof.
  intros Hon Hfresh Hact Hsettle v0 vf flagged Hne.
  destruct (run_passes_active drag s w Hon Hact)
    as (mid & Hmid & Hst & Hidx & Hon' & Hfr & Hc).
  rewrite Hfresh in Hc.
  exists mid. rewrite run_passes_snoc, Hmid. simpl.
  destruct mid as [sm wm]. cbn [fst snd] in *.
  rewrite run_pass_tracked by done. rewrite Hsettle, Hc.
  eexists. split; [reflexivity|]. split; [reflexivity|]. split; [done|].
  destruct (final_entry_fields drag settle) as (Hi & Hcur & Hm & H1 & H2 & H3).
  fold v0 in Hi. fold vf in Hcur. fold flagged in Hm.
  set (a := pass_entry onUndo onRedo onModified settle _) in *.
  unfold UndoValueScope_delete. cbn [scope_stack_ action_ hash_ negb orb].
  cbn [workingValueCache_ set_cache]. rewrite lookup_insert_eq.
  rewrite decide_False by (rewrite Hi, Hcur; done).
  unfold ValueCache_Detach. rewrite lookup_insert_eq. rewrite Hm.
  assert (a = {| initial_ := v0; current_ := vf; modified_ := flagged;
                 onUndo_ := onUndo; onRedo_ := onRedo;
                 onModified_ := onModified |}) as Ha.
  { destruct a. simpl in *. by subst. }
  destruct flagged; simpl.
  - split; [done|]. split; [done|]. split; [|done].
    intros _. rewrite Hfr, Ha. split; [done|]. apply lookup_delete_eq.
  - split; [done|]. split; [done|]. split; [done|].
    intros _. split; [done|]. rewrite lookup_insert_eq. rewrite Ha. done.
Qed.

End ContinuousEdit.

Lemma continuous_edit_records_once_witness :
  exists fin,
    run_passes 7%N set_value None None (drag_0_to_3 ++ [settle_at_3]) (fresh_stack, 0)
      = Some fin /\
    currentFrameActions_ fin.1
      = [as_action {| initial_ := 0; current_ := 3; modified_ := true;
                      onUndo_ := set_value; onRedo_ := None; onModified_ := None |}].
Proof.
  destruct (continuous_edit_records_once 7%N set_value None None
              drag_0_to_3 settle_at_3 fresh_stack 0)
    as (mid & fin & _ & Hfin & _ & _ & _ & Hrec & _).
  - reflexivity.
  - reflexivity.
  - repeat constructor.
  - reflexivity.
  - vm_compute. lia.
  - exists fin. split; [exact Hfin | exact (proj1 (Hrec eq_refl))].
Defined.

(** ** Element paths *)

Section PathFacts.
Context {Data : Type}.
Implicit Types (h : gmap N (UIElement Data)) (p path : UIElementPath).

Lemma index_of_lookup (el : N) (l : list N) : forall i,
  index_of el l = Some i -> l !! i = Some el.
Proof.
  induction l as [|c rest IH]; intros i; simpl; [done|].
  case_decide as Hc.
  - intros [= <-]. by subst.
  - destruct (index_of el rest) as [j|]; [|done].
    intros [= <-]. simpl. by apply IH.
Qed.

Lemma index_of_elem (el : N) (l : list N) :
  el ∈ l -> exists i, index_of el l = Some i /\ (i < length l)%nat.
Proof.
  induction l as [|c rest IH]; [by intros ?%elem_of_nil|].
  intros Hin. simpl. case_decide as Hc.
  - exists 0%nat. split; [done | lia].
  - apply elem_of_cons in Hin as [->|Hin]; [done|].
    destruct (IH Hin) as (i & -> & Hi). exists (S i). split; [done | lia].
Qed.

Lemma GetUIElementByPath_app h (el : N) p q :
  GetUIElementByPath h el (p ++ q) =
    match GetUIElementByPath h el p with
    | Element e => GetUIElementByPath h e q
    | r => r
    end.
Proof.
  revert el. induction p as [|i p IH]; intros el; simpl; [done|].
  destruct (h !! el) as [e|]; [|done].
  case_decide; [done|].
  destruct (children_ e !! N.to_nat i); [apply IH | done].
Qed.

(** The bounds test of [GetUIElementByPath] covers the only read of
    the vector. *)
Lemma GetUIElementByPath_in_bounds h p : forall el,
  GetUIElementByPath h el p <> OutOfBounds.
Proof.
  induction p as [|i p IH]; intros el; simpl; [done|].
  destruct (h !! el) as [e|]; [|done].
  case_decide as Hle; [done|].
  destruct (children_ e !! N.to_nat i) as [c|] eqn:Hc; [apply IH|].
  apply lookup_ge_None in Hc. lia.
Qed.

Lemma GetUIElementByPath_bad_index h (el e : N) (ed : UIElement Data) p (index : N) q :
  GetUIElementByPath h el p = Element e ->
  h !! e = Some ed ->
  (N.of_nat (length (children_ ed)) <= index)%N ->
  GetUIElementByPath h el (p ++ index :: q) = Null.
Proof.
  intros Hp He Hle. rewrite GetUIElementByPath_app, Hp. simpl.
  rewrite He. by rewrite decide_True.
Qed.

Lemma path_roundtrip_reachable h (root : N) :
  tree_linked h -> is_root h root ->
  forall p el,
  GetUIElementByPath h root p = Element el ->
  exists path,
    (forall fuel, (length p < fuel)%nat -> GetUIElementPath fuel h el = Some path) /\
    GetUIElementByPath h root path = Element el.
Proof.
  intros Hlinked Hroot p.
  induction p as [|i p IH] using rev_ind; intros el Hp.
  - simpl in Hp. injection Hp as <-.
    exists []. split; [|done].
    intros [|fuel] Hf; [simpl in Hf; lia|].
    unfold GetUIElementPath, is_root in *. simpl.
    destruct (h !! root) as [er|]; [|done].
    simpl in Hroot. injection Hroot as ->. reflexivity.
  - rewrite GetUIElementByPath_app in Hp.
    destruct (GetUIElementByPath h root p) as [par| | |] eqn:Hpar; try done.
    simpl in Hp.
    destruct (h !! par) as [ep|] eqn:Hep; [|done].
    case_decide as Hle; [done|].
    destruct (children_ ep !! N.to_nat i) as [c|] eqn:Hc; [|done].
    injection Hp as ->.
    pose proof (Hlinked par ep Hep) as [Hkids Hsize].
    assert (el ∈ children_ ep) as Hin by (by eapply list_elem_of_lookup_2).
    pose proof (proj1 (Forall_forall _ _) Hkids el Hin) as Hparent.
    cbv beta in Hparent.
    destruct (h !! el) as [ee|] eqn:Hee; [|simpl in Hparent; discriminate].
    simpl in Hparent. injection Hparent as Hparent.
    destruct (index_of_elem el (children_ ep) Hin) as (j & Hj & Hjlt).
    destruct (IH par eq_refl) as (path' & Hfuel & Hres).
    exists (path' ++ [N.of_nat j]). split.
    + intros [|fuel] Hf; [lia|].
      rewrite length_app in Hf. simpl in Hf.
      specialize (Hfuel fuel ltac:(lia)).
      unfold GetUIElementPath in *. simpl. rewrite Hee, Hparent.
      unfold FindChild, GetChildren. rewrite Hep. simpl. rewrite Hj.
      rewrite decide_False by (unfold M_MAX_UNSIGNED in *; lia).
      destruct (path_to_root fuel h par) as [r|]; [|done].
      simpl in *. injection Hfuel as <-. by rewrite reverse_cons.
    + rewrite GetUIElementByPath_app, Hres. simpl. rewrite Hep.
      rewrite decide_False by lia.
      rewrite Nat2N.id. by rewrite (index_of_lookup _ _ _ Hj).
Qed.

(** C10. In a tree whose children vectors and parent pointers agree,
    for every element that can be reached from the root, the path
    [GetUIElementPath] computes for the element (the walk up needs as
    many steps as the element is deep) is resolved by
    [GetUIElementByPath] from the root to that same element. And
    [GetUIElementByPath] never reads a children vector out of bounds:
    as soon as an index of the path is not below the number of
    children at its level, the result is null. *)
Theorem path_roundtrip h (root el : N) p :
  (tree_linked h -> is_root h root ->
   GetUIElementByPath h root p = Element el ->
   exists path,
     (forall fuel, (length p < fuel)%nat -> GetUIElementPath fuel h el = Some path) /\
     GetUIElementByPath h root path = Element el) /\
  (forall start path, GetUIElementByPath h start path <> OutOfBounds) /\
  (forall e ed (index : N) q,
     GetUIElementByPath h root p = Element e ->
     h !! e = Some ed ->
     (N.of_nat (length (children_ ed)) <= index)%N ->
     GetUIElementByPath h root (p ++ index :: q) = Null /\
     resolved_ptr (GetUIElementByPath h root (p ++ index :: q)) = None).
Proof.
  split; [|split].
  - intros Hlinked Hroot Hp. by eapply path_roundtrip_reachable.
  - intros start path. apply GetUIElementByPath_in_bounds.
  - intros e ed index q Hp He Hle.
    rewrite (GetUIElementByPath_bad_index h root e ed p index q Hp He Hle). done.
Qed.

End PathFacts.

Lemma small_ui_linked : tree_linked small_ui.
Proof. apply (bool_decide_unpack _). vm_compute. reflexivity. Qed.

Lemma path_roundtrip_witness :
  exists path,
    GetUIElementPath 3 small_ui 4%N = Some path /\
    GetUIElementByPath small_ui 1%N path = Element 4%N.
Proof.
  destruct (proj1 (path_roundtrip small_ui 1%N 4%N [0%N; 0%N])) as (path & Hfuel & Hres).
  - apply (bool_decide_unpack _). vm_compute. reflexivity.
  - reflexivity.
  - reflexivity.
  - exists path. split; [apply Hfuel; simpl; lia | exact Hres].
Defined.

(** ** Concrete actions on a document that changed shape *)

Section CommandFacts.
Context `{Engine}.
Implicit Types (d : Document) (c : Command).

Lemma set_scene_same d (sc : Scene) : scene_ d = Some sc -> set_scene sc d = d.
Proof. destruct d. simpl. by intros ->. Qed.

Lemma reparent_to_old_unresolved d (sc : Scene) (n : nat) : forall nodeList,
  (length nodeList <= n)%nat ->
  scene_ d = Some sc ->
  pairs_unresolved d nodeList ->
  reparent_to_old nodeList sc = sc.
Proof.
  induction n as [|n IH]; intros [|nodeID [|oldParentID rest]] Hlen Hsc Hun;
    simpl in *; try done; try lia.
  destruct Hun as [Hpair Hrest].
  unfold find_node in Hpair. rewrite Hsc in Hpair. simpl in Hpair.
  assert (reparent_if_found sc oldParentID nodeID = sc) as ->.
  { unfold reparent_if_found.
    destruct Hpair as [-> | Hn]; [done|]. rewrite Hn. by destruct (Scene_GetNode sc oldParentID). }
  apply IH; [lia | done | done].
Qed.

Lemma reparent_to_new_unresolved d (sc : Scene) (parent : Node) (n : nat) : forall nodeList,
  (length nodeList <= n)%nat ->
  scene_ d = Some sc ->
  nodes_unresolved d nodeList ->
  reparent_to_new parent nodeList sc = sc.
Proof.
  induction n as [|n IH]; intros [|nodeID [|oldParentID rest]] Hlen Hsc Hun;
    simpl in *; try done; try lia.
  destruct Hun as [Hnode Hrest].
  unfold find_node in Hnode. rewrite Hsc in Hnode. simpl in Hnode.
  rewrite Hnode. apply IH; [lia | done | done].
Qed.

(** The loops over [nodeList_] go through the pairs one after the
    other. *)
Lemma reparent_to_old_app (k : nat) : forall (pre rest : list N) (sc : Scene),
  length pre = (2 * k)%nat ->
  reparent_to_old (pre ++ rest) sc = reparent_to_old rest (reparent_to_old pre sc).
Proof.
  induction k as [|k IH]; intros [|nodeID [|parentID pre]] rest sc Hlen;
    simpl in *; try done; try lia.
  apply IH. lia.
Qed.

Lemma reparent_to_new_app (parent : Node) (k : nat) : forall (pre rest : list N) (sc : Scene),
  length pre = (2 * k)%nat ->
  reparent_to_new parent (pre ++ rest) sc =
    reparent_to_new parent rest (reparent_to_new parent pre sc).
Proof.
  induction k as [|k IH]; intros [|nodeID [|parentID pre]] rest sc Hlen;
    simpl in *; try done; try lia.
  apply IH. lia.
Qed.

(** C1 (as amended). Every concrete action first tests the weak
    pointer to its scene, UI root or target; when that has expired,
    Undo and Redo return false and leave the document as it is. When
    it is alive and an identifier or path the call needs does not
    resolve, every action but the style-sheet edit and the batch
    reparent leaves the document as it is and returns true. A batch
    reparent takes the pairs of its list one by one: with no pair that
    resolves it leaves the document as it is, and a pair that does not
    resolve when the loop reaches it (for Undo its node or its old
    parent, for Redo its node) is skipped, the call doing what it does
    for the list without that pair. The only call that returns false
    on a live scene is Redo of a batch reparent whose new parent does
    not resolve. *)
Theorem unresolved_commands_change_nothing c d :
  (expired c d ->
     Command_Undo c d = Returns false d /\ Command_Redo c d = Returns false d) /\
  (~ expired c d -> is_EditUIStyle c = false ->
     (unresolved_Undo c d -> Command_Undo c d = Returns true d) /\
     (unresolved_Redo c d ->
        Command_Redo c d = Returns (negb (batch_parent_missing c d)) d)) /\
  (forall a (pre post : list N) (nodeID parentID : N) (k : nat) (sc : Scene),
     c = ReparentNode a -> rn_multiple_ a = true ->
     rn_nodeList_ a = pre ++ nodeID :: parentID :: post ->
     length pre = (2 * k)%nat ->
     scene_ d = Some sc ->
     (Scene_GetNode (reparent_to_old pre sc) parentID = None \/
      Scene_GetNode (reparent_to_old pre sc) nodeID = None ->
      Command_Undo c d = Command_Undo (ReparentNode (with_nodeList (pre ++ post) a)) d) /\
     (forall parent,
        Scene_GetNode sc (rn_newParentID_ a) = Some parent ->
        Scene_GetNode (reparent_to_new parent pre sc) nodeID = None ->
        Command_Redo c d = Command_Redo (ReparentNode (with_nodeList (pre ++ post) a)) d)).
Proof.
  split; [|split].
  3:{ intros a pre post nodeID parentID k sc -> Hmulti Hlist Hlen Hsc.
      simpl. unfold UndoReparentNode_Undo, UndoReparentNode_Redo.
      rewrite Hsc, Hmulti, Hlist. simpl. rewrite Hmulti. split.
      - intros Hgone. do 2 f_equal.
        rewrite !(reparent_to_old_app k) by done. simpl.
        unfold reparent_if_found.
        destruct Hgone as [-> | Hnode]; [done|]. rewrite Hnode.
        by destruct (Scene_GetNode _ parentID).
      - intros parent -> Hgone. do 2 f_equal.
        rewrite !(reparent_to_new_app parent k) by done. simpl.
        by rewrite Hgone. }
  - intros Hexp. destruct c as [a|a|a|a|a|a|a|a|a|a|a]; simpl in *;
      try (unfold UndoCreateNode_Undo, UndoCreateNode_Redo, UndoDeleteNode_Undo,
             UndoDeleteNode_Redo, UndoReparentNode_Undo, UndoReparentNode_Redo,
             UndoCreateComponent_Undo, UndoCreateComponent_Redo,
             UndoDeleteComponent_Undo, UndoDeleteComponent_Redo,
             UndoCreateUIElement_Undo, UndoCreateUIElement_Redo,
             UndoDeleteUIElement_Undo, UndoDeleteUIElement_Redo,
             UndoReparentUIElement_Undo, UndoReparentUIElement_Redo,
             UndoApplyUIElementStyle_Undo, UndoApplyUIElementStyle_Redo,
             UndoEditUIStyle_Undo, UndoEditUIStyle_Redo;
           rewrite Hexp; done).
    unfold UndoEditAttribute_Undo, UndoEditAttribute_Redo. by rewrite Hexp.
  - intros Halive Hnot.
    destruct c as [a|a|a|a|a|a|a|a|a|a|a]; simpl in *; try discriminate.
    + (* UndoCreateNode *)
      unfold UndoCreateNode_Undo, UndoCreateNode_Redo, find_node.
      scene_alive d Halive. split.
      * intros [-> | ->]; [done|]. by destruct (Scene_GetNode sc (cn_parentID_ a)).
      * by intros ->.
    + (* UndoDeleteNode *)
      unfold UndoDeleteNode_Undo, UndoDeleteNode_Redo, find_node.
      scene_alive d Halive. split.
      * by intros ->.
      * intros [-> | ->]; [done|]. by destruct (Scene_GetNode sc (dn_parentID_ a)).
    + (* UndoReparentNode *)
      unfold UndoReparentNode_Undo, UndoReparentNode_Redo.
      destruct (scene_ d) as [sc|] eqn:Hsc; [|done].
      destruct (rn_multiple_ a); simpl.
      * split.
        -- intros Hun. rewrite (reparent_to_old_unresolved d sc _ _ (le_n _) Hsc Hun).
           by rewrite set_scene_same.
        -- unfold find_node at 1 2. rewrite Hsc. simpl.
           destruct (Scene_GetNode sc (rn_newParentID_ a)) as [parent|]; [|done].
           intros [? | Hun]; [done|]. simpl.
           rewrite (reparent_to_new_unresolved d sc parent _ _ (le_n _) Hsc Hun).
           by rewrite set_scene_same.
      * unfold find_node, reparent_if_found. rewrite Hsc. simpl. split.
        -- intros [-> | ->]; [by rewrite set_scene_same|].
           destruct (Scene_GetNode sc (rn_oldParentID_ a)); by rewrite set_scene_same.
        -- intros [-> | ->]; [by rewrite set_scene_same|].
           destruct (Scene_GetNode sc (rn_newParentID_ a)); by rewrite set_scene_same.
    + (* UndoCreateComponent *)
      unfold UndoCreateComponent_Undo, UndoCreateComponent_Redo, find_node, find_component.
      scene_alive d Halive. split.
      * intros [-> | ->]; [done|]. by destruct (Scene_GetNode sc (cc_nodeID_ a)).
      * by intros ->.
    + (* UndoDeleteComponent *)
      unfold UndoDeleteComponent_Undo, UndoDeleteComponent_Redo, find_node, find_component.
      scene_alive d Halive. split.
      * by intros ->.
      * intros [-> | ->]; [done|]. by destruct (Scene_GetNode sc (dc_nodeID_ a)).
    + (* UndoEditAttribute *)
      unfold UndoEditAttribute_Undo, UndoEditAttribute_Redo.
      destruct (UndoEditAttribute_IsExpired a d); [done|].
      split; by intros ->.
    + (* UndoCreateUIElement *)
      unfold UndoCreateUIElement_Undo, UndoCreateUIElement_Redo, find_element.
      root_alive d Halive. split.
      * intros [-> | ->]; [done|]. by destruct (element_by_path d root (cu_parentPath_ a)).
      * by intros ->.
    + (* UndoDeleteUIElement *)
      unfold UndoDeleteUIElement_Undo, UndoDeleteUIElement_Redo, find_element.
      root_alive d Halive. split.
      * by intros ->.
      * intros [-> | ->]; [done|]. by destruct (element_by_path d root (du_parentPath_ a)).
    + (* UndoReparentUIElement *)
      unfold UndoReparentUIElement_Undo, UndoReparentUIElement_Redo, find_element.
      root_alive d Halive. split.
      * intros [-> | ->]; [done|]. by destruct (element_by_path d root (ru_oldParentPath_ a)).
      * intros [-> | ->]; [done|]. by destruct (element_by_path d root (ru_newParentPath_ a)).
    + (* UndoApplyUIElementStyle *)
      unfold UndoApplyUIElementStyle_Undo, UndoApplyUIElementStyle_Redo,
        UndoApplyUIElementStyle_ApplyStyle, find_element.
      root_alive d Halive.
      split; (intros [-> | ->]; [done|]);
        by destruct (element_by_path d root (as_parentPath_ a)).
Qed.

(** The style-sheet edit is the exception: with the root alive and a
    path that does not resolve, both directions call through the null
    pointer. *)
Lemma UndoEditUIStyle_unresolved (a : UndoEditUIStyle) d :
  root_ d <> None ->
  find_element d (es_elementId_ a) = None ->
  UndoEditUIStyle_Undo a d = NullDereference /\
  UndoEditUIStyle_Redo a d = NullDereference.
Proof.
  intros Halive. unfold UndoEditUIStyle_Undo, UndoEditUIStyle_Redo, find_element.
  destruct (root_ d) as [root|]; [|done]. simpl. by intros ->.
Qed.

End CommandFacts.

(** C1, counterexample. The scene is alive, the parent 7 and the node
    9 the action stored do not resolve, and Undo returns true, not
    false (the document is left as it is). *)
Lemma unresolved_Undo_returns_true :
  ~ expired stale_create_node toy_document /\
  unresolved_Undo stale_create_node toy_document /\
  Command_Undo stale_create_node toy_document <> Returns false toy_document.
Proof.
  split; [discriminate|]. split; [by left|].
  vm_compute. discriminate.
Qed.

Lemma unresolved_commands_change_nothing_witness :
  Command_Undo stale_create_node toy_document = Returns true toy_document /\
  Command_Undo (ReparentNode batch_with_stale_pair) deep_document =
    Command_Undo (ReparentNode (with_nodeList [3%N; 1%N] batch_with_stale_pair))
      deep_document /\
  Command_Undo (ReparentNode batch_with_stale_pair) deep_document =
    Returns true (set_scene (toy_set_parent 3%N 1%N deep_scene) deep_document).
Proof.
  split; [|split].
  - destruct (unresolved_commands_change_nothing stale_create_node toy_document)
      as (_ & Halive & _).
    destruct Halive as [Hundo _].
    + discriminate.
    + reflexivity.
    + apply Hundo. left. reflexivity.
  - destruct (unresolved_commands_change_nothing (ReparentNode batch_with_stale_pair)
                deep_document) as (_ & _ & Hbatch).
    destruct (Hbatch batch_with_stale_pair [] [3%N; 1%N] 9%N 1%N 0%nat deep_scene
                eq_refl eq_refl eq_refl eq_refl eq_refl) as [Hundo _].
    apply Hundo. right. reflexivity.
  - reflexivity.
Defined.

(** * Further properties of the header *)

(** ** Paths identify elements *)

Section PathIdentity.
Context {Data : Type}.
Implicit Types (h : gmap N (UIElement Data)) (p path : UIElementPath).

Lemma path_to_root_more_fuel h : forall fuel fuel' (el : N) r,
  path_to_root fuel h el = Some r ->
  (fuel <= fuel')%nat ->
  path_to_root fuel' h el = Some r.
Proof.
  induction fuel as [|fuel IH]; intros fuel' el r Hr Hle; [done|].
  destruct fuel' as [|fuel']; [lia|]. simpl in *.
  destruct (h !! el) as [e|]; [|done].
  destruct (parent_ e) as [par|]; [|done].
  case_decide; [done|].
  destruct (path_to_root fuel h par) as [r'|] eqn:Hr'; [|done].
  rewrite (IH fuel' par r' Hr') by lia. done.
Qed.

Lemma GetUIElementPath_more_fuel h (fuel fuel' : nat) (el : N) p :
  GetUIElementPath fuel h el = Some p ->
  (fuel <= fuel')%nat ->
  GetUIElementPath fuel' h el = Some p.
Proof.
  unfold GetUIElementPath. intros Hp Hle.
  destruct (path_to_root fuel h el) as [r|] eqn:Hr; [|done].
  by rewrite (path_to_root_more_fuel h fuel fuel' el r Hr Hle).
Qed.

(** The element a path leads to has, as parent, the element the path
    without its last index leads to. *)
Lemma resolved_child_parent h (start : N) p (i : N) (el : N) :
  tree_linked h ->
  GetUIElementByPath h start (p ++ [i]) = Element el ->
  exists par, GetUIElementByPath h start p = Element par /\
              GetParent h el = Some par /\
              GetChildren h par !! N.to_nat i = Some el.
Proof.
  intros Hlinked Hp. rewrite GetUIElementByPath_app in Hp.
  destruct (GetUIElementByPath h start p) as [par| | |] eqn:Hpar; try done.
  simpl in Hp. destruct (h !! par) as [ep|] eqn:Hep; [|done].
  case_decide as Hle; [done|].
  destruct (children_ ep !! N.to_nat i) as [c|] eqn:Hc; [|done].
  injection Hp as ->. exists par. split; [done|].
  pose proof (Hlinked par ep Hep) as [Hkids _].
  assert (el ∈ children_ ep) as Hin by (by eapply list_elem_of_lookup_2).
  pose proof (proj1 (Forall_forall _ _) Hkids el Hin) as Hparent.
  cbv beta in Hparent. unfold GetParent, GetChildren. rewrite Hep. simpl.
  split; [|done].
  destruct (h !! el) as [ee|]; simpl in *; [|discriminate].
  by injection Hparent as ->.
Qed.

(** X1. In a linked tree whose children vectors hold no element
    twice, capturing the path of the element that a path from the root
    leads to gives that very path back. *)
Theorem path_capture_after_resolve h (root el : N) p (fuel : nat) :
  tree_linked h -> tree_nodup h -> is_root h root ->
  GetUIElementByPath h root p = Element el ->
  (length p < fuel)%nat ->
  GetUIElementPath fuel h el = Some p.
Proof.
  intros Hlinked Hnodup Hroot. revert el fuel.
  induction p as [|i p IH] using rev_ind; intros el fuel Hp Hfuel.
  - simpl in Hp. injection Hp as <-.
    destruct fuel as [|fuel]; [simpl in Hfuel; lia|].
    unfold GetUIElementPath, is_root in *. simpl.
    destruct (h !! root) as [er|]; [|done].
    simpl in Hroot. injection Hroot as ->. reflexivity.
  - destruct (resolved_child_parent h root p i el Hlinked Hp) as (par & Hpar & Hparent & Hchild).
    rewrite length_app in Hfuel. simpl in Hfuel.
    destruct fuel as [|fuel]; [lia|].
    assert (length p < fuel)%nat as Hfuel' by lia.
    specialize (IH par fuel Hpar Hfuel').
    unfold GetParent, GetChildren in *.
    destruct (h !! el) as [ee|] eqn:Hee; [|done].
    destruct (h !! par) as [ep|] eqn:Hep; [|done]. simpl in *.
    assert (el ∈ children_ ep) as Hin by (by eapply list_elem_of_lookup_2).
    destruct (index_of_elem el (children_ ep) Hin) as (j & Hj & Hjlt).
    assert (j = N.to_nat i) as ->.
    { eapply NoDup_lookup; [exact (Hnodup par ep Hep) | | exact Hchild].
      by apply index_of_lookup. }
    pose proof (Hlinked par ep Hep) as [_ Hsize].
    unfold GetUIElementPath in *. simpl. rewrite Hee, Hparent.
    unfold FindChild, GetChildren. rewrite Hep. simpl. rewrite Hj.
    rewrite N2Nat.id.
    apply lookup_lt_Some in Hchild.
    rewrite decide_False by (unfold M_MAX_UNSIGNED in *; lia).
    destruct (path_to_root fuel h par) as [r|]; [|done].
    simpl in *. injection IH as <-. by rewrite reverse_cons.
Qed.

(** X2. In a linked tree, two different elements that can be reached
    from the root never have the same path. *)
Theorem path_identifies_element h (root a b : N) pa pb p (fuel : nat) :
  tree_linked h -> is_root h root ->
  GetUIElementByPath h root pa = Element a ->
  GetUIElementByPath h root pb = Element b ->
  a <> b ->
  GetUIElementPath fuel h a = Some p ->
  GetUIElementPath fuel h b <> Some p.
Proof.
  intros Hlinked Hroot Ha Hb Hne Hpa Hpb. apply Hne.
  destruct (path_roundtrip_reachable h root Hlinked Hroot pa a Ha) as (qa & Hfa & Hra).
  destruct (path_roundtrip_reachable h root Hlinked Hroot pb b Hb) as (qb & Hfb & Hrb).
  set (big := (fuel + S (length pa) + S (length pb))%nat).
  assert (fuel <= big)%nat as Hbig by lia.
  assert (length pa < big)%nat as Hbiga by lia.
  assert (length pb < big)%nat as Hbigb by lia.
  assert (qa = p) as ->.
  { pose proof (GetUIElementPath_more_fuel h fuel big a p Hpa Hbig) as H1.
    rewrite (Hfa big Hbiga) in H1. by injection H1. }
  assert (qb = p) as ->.
  { pose proof (GetUIElementPath_more_fuel h fuel big b p Hpb Hbig) as H1.
    rewrite (Hfb big Hbigb) in H1. by injection H1. }
  rewrite Hra in Hrb. by injection Hrb.
Qed.

End PathIdentity.

Lemma path_capture_after_resolve_witness :
  GetUIElementPath 3 small_ui 4%N = Some [0%N; 0%N].
Proof.
  apply (path_capture_after_resolve small_ui 1%N 4%N [0%N; 0%N] 3).
  - apply (bool_decide_unpack _). vm_compute. reflexivity.
  - apply (bool_decide_unpack _). vm_compute. reflexivity.
  - reflexivity.
  - reflexivity.
  - simpl. lia.
Defined.

Lemma path_identifies_element_witness :
  GetUIElementPath 3 small_ui 3%N <> Some [0%N].
Proof.
  apply (path_identifies_element small_ui 1%N 2%N 3%N [0%N] [1%N] [0%N] 3).
  - apply (bool_decide_unpack _). vm_compute. reflexivity.
  - reflexivity.
  - reflexivity.
  - reflexivity.
  - discriminate.
  - reflexivity.
Defined.

(** ** An action that captured an element finds it again *)

Section CaptureFacts.
Context `{Engine}.
Implicit Types (d : Document).

(** X3. In a linked tree, the action built for the creation of an
    element that has a parent and can be reached from the live root
    stores paths that lead back to the two of them: its Undo, run on
    the same tree, removes exactly that element from that parent. *)
Theorem created_element_is_found_again d (root element parent : N) p (fuel : nat)
    (elementData : XMLFile) (styleFile : option XMLFile) :
  tree_linked (ui_ d) -> is_root (ui_ d) root ->
  root_ d = Some root ->
  GetUIElementByPath (ui_ d) root p = Element element ->
  GetParent (ui_ d) element = Some parent ->
  (length p < fuel)%nat ->
  exists a,
    UndoCreateUIElement_new fuel d element elementData styleFile = Some a /\
    UndoCreateUIElement_Undo a d =
      Returns true (set_ui (UIElement_RemoveChild parent element (ui_ d)) d).
Proof.
  intros Hlinked Hroot Hlive Hp Hparent Hfuel.
  destruct (path_roundtrip_reachable _ root Hlinked Hroot p element Hp)
    as (pe & Hfe & Hre).
  assert (exists q, GetUIElementByPath (ui_ d) root q = Element parent /\
                    (length q < length p)%nat) as (q & Hq & Hqlen).
  { destruct p as [|i p _] using rev_ind.
    - simpl in Hp. injection Hp as <-.
      unfold is_root, GetParent in *.
      destruct (ui_ d !! root) as [er|]; simpl in *; [|done].
      injection Hroot as Hnone. congruence.
    - destruct (resolved_child_parent _ root p i element Hlinked Hp)
        as (par & Hpar & Hparent' & _).
      exists p. rewrite Hparent in Hparent'. injection Hparent' as ->.
      split; [done|]. rewrite length_app. simpl. lia. }
  destruct (path_roundtrip_reachable _ root Hlinked Hroot q parent Hq)
    as (pp & Hfp & Hrp).
  assert (length q < fuel)%nat as Hfuelq by lia.
  exists {| cu_elementPath_ := pe; cu_parentPath_ := pp;
            cu_elementData_ := elementData; cu_styleFile_ := styleFile |}.
  split.
  - unfold UndoCreateUIElement_new.
    rewrite (Hfe fuel Hfuel). simpl. rewrite Hparent. simpl.
    rewrite (Hfp fuel Hfuelq). reflexivity.
  - unfold UndoCreateUIElement_Undo, element_by_path. rewrite Hlive. simpl.
    rewrite Hrp, Hre. reflexivity.
Qed.

End CaptureFacts.

Lemma created_element_is_found_again_witness :
  exists a,
    UndoCreateUIElement_new 3 toy_document 4%N tt None = Some a /\
    UndoCreateUIElement_Undo a toy_document =
      Returns true (set_ui (toy_remove_child 2%N 4%N small_ui) toy_document).
Proof.
  apply (created_element_is_found_again toy_document 1%N 4%N 2%N [0%N; 0%N] 3 tt None).
  - apply (bool_decide_unpack _). vm_compute. reflexivity.
  - reflexivity.
  - reflexivity.
  - reflexivity.
  - reflexivity.
  - simpl. lia.
Defined.

(** ** What the concrete actions report and what they leave alone *)

Section ActionFacts.
Context `{Engine}.
Implicit Types (d : Document) (c : Command).

(** X4. Whenever Undo or Redo of a concrete action returns, the flag
    it returns is false exactly when the weak pointer the action tests
    has expired (for Redo: or the action is a batch reparent whose new
    parent is gone), and a call that returns false has changed nothing. *)
Theorem return_flag_tells_expiry c d (flag : bool) (d' : Document) :
  (Command_Undo c d = Returns flag d' ->
     (flag = false <-> expired c d) /\ (flag = false -> d' = d)) /\
  (Command_Redo c d = Returns flag d' ->
     (flag = false <-> expired c d \/ batch_parent_missing c d = true) /\
     (flag = false -> d' = d)).
Proof.
  split; intros Hret; destruct c as [a|a|a|a|a|a|a|a|a|a|a];
    revert Hret; unfold_actions; unfold expired, batch_parent_missing, find_node;
    open_action; simpl; intros [= <- <-] || intros [=];
    repeat match goal with Hx : Scene_GetNode _ _ = _ |- _ => rewrite Hx; clear Hx end;
    try (split; [split; [done | intros; by intuition congruence] | done]);
    try (split; [split; [by auto | done] | done]).
Qed.

(** X6. A batch reparent of one node undoes exactly like the single
    form. It redoes like the single form as long as the new parent
    exists; when the new parent is gone the batch form returns false
    and the single form returns true, both without a change. *)
Theorem batch_of_one_vs_single (nodeID oldParentID newParentID unset : N) d :
  UndoReparentNode_Undo (batch_of_one nodeID oldParentID newParentID unset) d =
    UndoReparentNode_Undo (single_reparent nodeID oldParentID newParentID) d /\
  (scene_ d = None \/ find_node d newParentID <> None ->
     UndoReparentNode_Redo (batch_of_one nodeID oldParentID newParentID unset) d =
       UndoReparentNode_Redo (single_reparent nodeID oldParentID newParentID) d) /\
  (scene_ d <> None -> find_node d newParentID = None ->
     UndoReparentNode_Redo (batch_of_one nodeID oldParentID newParentID unset) d =
       Returns false d /\
     UndoReparentNode_Redo (single_reparent nodeID oldParentID newParentID) d =
       Returns true d).
Proof.
  unfold UndoReparentNode_Undo, UndoReparentNode_Redo, find_node. simpl.
  destruct (scene_ d) as [sc|] eqn:Hsc; simpl.
  - split; [done|]. unfold reparent_if_found. split.
    + intros [? | Hfound]; [done|].
      by destruct (Scene_GetNode sc newParentID).
    + intros _ ->. split; [done|]. by rewrite set_scene_same.
  - split; [done|]. split; [done|]. by intros [].
Qed.

(** X7. The delete actions are the create actions run backwards:
    Redo of a delete action is Undo of the create action with the same
    data, for nodes, components and UI elements, and Undo of a deleted
    UI element is Redo of its creation. For components, Undo of a
    delete and Redo of a create agree whenever loading the component
    data succeeds. *)
Theorem delete_mirrors_create d (parentID index nodeID : N) (data : VectorBuffer)
    (elementPath parentPath : UIElementPath) (xml : XMLFile) (style : option XMLFile) :
  UndoDeleteNode_Redo
    {| dn_parentID_ := parentID; dn_parentIndex_ := index; dn_nodeData_ := data |} d =
  UndoCreateNode_Undo {| cn_parentID_ := parentID; cn_nodeData_ := data |} d /\
  UndoDeleteComponent_Redo {| dc_nodeID_ := nodeID; dc_componentData_ := data |} d =
  UndoCreateComponent_Undo {| cc_nodeID_ := nodeID; cc_componentData_ := data |} d /\
  UndoDeleteUIElement_Redo
    {| du_elementPath_ := elementPath; du_parentPath_ := parentPath;
       du_elementData_ := xml; du_styleFile_ := style |} d =
  UndoCreateUIElement_Undo
    {| cu_elementPath_ := elementPath; cu_parentPath_ := parentPath;
       cu_elementData_ := xml; cu_styleFile_ := style |} d /\
  UndoDeleteUIElement_Undo
    {| du_elementPath_ := elementPath; du_parentPath_ := parentPath;
       du_elementData_ := xml; du_styleFile_ := style |} d =
  UndoCreateUIElement_Redo
    {| cu_elementPath_ := elementPath; cu_parentPath_ := parentPath;
       cu_elementData_ := xml; cu_styleFile_ := style |} d /\
  ((forall component sc, (Component_Load component data sc).1 = true) ->
   UndoDeleteComponent_Undo {| dc_nodeID_ := nodeID; dc_componentData_ := data |} d =
   UndoCreateComponent_Redo {| cc_nodeID_ := nodeID; cc_componentData_ := data |} d).
Proof.
  repeat split; try reflexivity.
  intros Hload. unfold UndoDeleteComponent_Undo, UndoCreateComponent_Redo. simpl.
  destruct (scene_ d) as [sc|]; [|done].
  destruct (Scene_GetNode sc nodeID) as [node|]; [|done].
  destruct (Node_CreateComponent _ _ _ _ _) as [component sc1].
  specialize (Hload component sc1).
  destruct (Component_Load component data sc1) as [loaded sc2].
  simpl in Hload. by subst.
Qed.

End ActionFacts.

Lemma return_flag_tells_expiry_witness :
  Command_Undo stale_create_node toy_document = Returns true toy_document /\
  ~ expired stale_create_node toy_document.
Proof.
  split; [reflexivity|].
  destruct (return_flag_tells_expiry stale_create_node toy_document true toy_document)
    as [Hundo _].
  destruct (Hundo eq_refl) as [Hiff _].
  intros Hexp. apply Hiff in Hexp. discriminate.
Defined.

Lemma batch_of_one_vs_single_witness :
  UndoReparentNode_Redo (batch_of_one 2%N 1%N 7%N 0%N) toy_document
    = Returns false toy_document /\
  UndoReparentNode_Redo (single_reparent 2%N 1%N 7%N) toy_document
    = Returns true toy_document.
Proof.
  destruct (batch_of_one_vs_single 2%N 1%N 7%N 0%N toy_document) as (_ & _ & Hgone).
  apply Hgone; [discriminate | reflexivity].
Defined.

Lemma delete_mirrors_create_witness :
  UndoDeleteComponent_Undo {| dc_nodeID_ := 2%N; dc_componentData_ := [5%N; 9%N] |}
    toy_document =
  UndoCreateComponent_Redo {| cc_nodeID_ := 2%N; cc_componentData_ := [5%N; 9%N] |}
    toy_document.
Proof.
  destruct (delete_mirrors_create toy_document 1%N 0%N 2%N [5%N; 9%N] [] [] tt None)
    as (_ & _ & _ & _ & Hload).
  apply Hload. intros component sc. reflexivity.
Defined.

(** ** The value history of the attribute inspector *)

Section ValueHistoryFacts.
Context {Value : Type} `{Inhabited Value} (ne : Value -> Value -> bool).
Implicit Types (x : Visit Value) (xs : list (Visit Value)) (h : ValueHistory Value).

Lemma visits_app xs : forall (ys : list (Visit Value)) (state : option (ValueHistory Value)),
  visits ne (xs ++ ys) state =
    let '(r1, st1) := visits ne xs state in
    let '(r2, st2) := visits ne ys st1 in (r1 ++ r2, st2).
Proof.
  induction xs as [|x xs IH]; intros ys state; simpl.
  - by destruct (visits ne ys state).
  - destruct (visit ne x state) as [m hx]. rewrite IH.
    destruct (visits ne xs (Some hx)) as [r1 st1].
    by destruct (visits ne ys st1).
Qed.

Lemma ValueHistory_store_fields (edit : option Value) h :
  ValueHistory_store edit h =
    {| vh_initial_ := vh_initial_ h; vh_current_ := default (vh_current_ h) edit;
       vh_expired_ := vh_expired_ h |}.
Proof. by destruct edit, h. Qed.

(** [Get] never hands out an expired history. *)
Lemma ValueHistory_Get_live (v : Value) (state : option (ValueHistory Value)) :
  vh_expired_ (ValueHistory_Get v state) = false.
Proof.
  unfold ValueHistory_Get. destruct state as [h|]; simpl; [|done].
  by destruct (vh_expired_ h) eqn:E.
Qed.

(** A history that is new or has expired starts over from the value
    it is given; a live one is handed out as it is. *)
Lemma ValueHistory_Get_cases (v : Value) (state : option (ValueHistory Value)) :
  ValueHistory_Get v state =
    match state with
    | Some h =>
        if vh_expired_ h then {| vh_initial_ := v; vh_current_ := v; vh_expired_ := false |}
        else h
    | None => {| vh_initial_ := v; vh_current_ := v; vh_expired_ := false |}
    end.
Proof. by destruct state. Qed.

(** One visit, in terms of the history [Get] hands out. *)
Lemma visit_fields x (state : option (ValueHistory Value)) :
  let g := ValueHistory_Get (visit_value x) state in
  let c := default (vh_current_ g) (visit_edit x) in
  let m := ne (vh_initial_ g) c && negb (visit_active x) in
  visit ne x state =
    (m, {| vh_initial_ := vh_initial_ g; vh_current_ := c; vh_expired_ := m |}).
Proof.
  intros g c m. unfold visit. fold g. rewrite ValueHistory_store_fields. fold c.
  unfold ValueHistory_IsModified. cbn [vh_initial_ vh_current_ vh_expired_]. fold m.
  unfold g at 3. rewrite ValueHistory_Get_live. by destruct m.
Qed.

(** The first visit of a run treats no state like a live history that
    holds the value of the visit. *)
Lemma visits_from_nothing x xs :
  visits ne (x :: xs) None =
    visits ne (x :: xs)
      (Some {| vh_initial_ := visit_value x; vh_current_ := visit_value x;
               vh_expired_ := false |}).
Proof. simpl. by rewrite !visit_fields, !ValueHistory_Get_cases. Qed.

(** While an item is active a live history keeps its initial value,
    follows the edits and reports nothing. *)
Lemma visits_active xs : forall h,
  vh_expired_ h = false ->
  Forall (fun x => visit_active x = true) xs ->
  visits ne xs (Some h) =
    (replicate (length xs) false,
     Some {| vh_initial_ := vh_initial_ h;
             vh_current_ := last_edit xs (vh_current_ h);
             vh_expired_ := false |}).
Proof.
  induction xs as [|x xs IH]; intros h Hlive Hact.
  - simpl. by destruct h; simpl in *; subst.
  - apply Forall_cons in Hact as [Hx Hact]. simpl.
    rewrite visit_fields, ValueHistory_Get_cases, Hlive, Hx, andb_false_r.
    by rewrite IH.
Qed.

(** A live history over a run of visits with an item active and one
    visit with none. *)
Lemma visits_settle xs (settle : Visit Value) h :
  vh_expired_ h = false ->
  Forall (fun x => visit_active x = true) xs ->
  visit_active settle = false ->
  let c := last_edit (xs ++ [settle]) (vh_current_ h) in
  visits ne (xs ++ [settle]) (Some h) =
    (replicate (length xs) false ++ [ne (vh_initial_ h) c],
     Some {| vh_initial_ := vh_initial_ h; vh_current_ := c;
             vh_expired_ := ne (vh_initial_ h) c |}).
Proof.
  intros Hlive Hact Hsettle c.
  rewrite visits_app, visits_active by done. simpl.
  rewrite visit_fields, ValueHistory_Get_cases. simpl. rewrite Hsettle, andb_true_r.
  unfold c, last_edit. by rewrite foldl_snoc.
Qed.

(** X8. A value history that starts from nothing reports nothing at
    the visits that find an item active. At the first visit that finds
    none it reports whether the value it holds differs from the value
    the first visit was given, and expires when it reports. The visit
    after that starts over from the value it is given when the history
    has expired, and goes on from the old initial value when it has
    not; either way it reports a difference it finds with no item
    active. *)
Theorem ValueHistory_reports_once xs (settle next : Visit Value) :
  Forall (fun x => visit_active x = true) xs ->
  visit_active settle = false ->
  let v0 := visit_value (default settle (head xs)) in
  let vf := last_edit (xs ++ [settle]) v0 in
  let changed := ne v0 vf in
  (visits ne (xs ++ [settle]) None).1 = replicate (length xs) false ++ [changed] /\
  (visits ne (xs ++ [settle]) None).2 =
    Some {| vh_initial_ := v0; vh_current_ := vf; vh_expired_ := changed |} /\
  (visits ne (xs ++ [settle; next]) None).1 =
    replicate (length xs) false ++
    [changed;
     (if changed
      then ne (visit_value next) (default (visit_value next) (visit_edit next))
      else ne v0 (default vf (visit_edit next)))
     && negb (visit_active next)].
Proof.
  intros Hact Hsettle v0 vf changed.
  set (h0 := {| vh_initial_ := v0; vh_current_ := v0; vh_expired_ := false |}).
  assert (forall tail, visits ne (xs ++ settle :: tail) None
                       = visits ne (xs ++ settle :: tail) (Some h0)) as Hstart.
  { intros tail. unfold h0, v0. destruct xs as [|x xs']; apply visits_from_nothing. }
  pose proof (visits_settle xs settle h0 eq_refl Hact Hsettle) as Hrun.
  cbv zeta in Hrun. cbn [vh_initial_ vh_current_ h0] in Hrun.
  fold vf in Hrun. fold changed in Hrun.
  rewrite (Hstart []), Hrun. split; [done|]. split; [done|].
  rewrite (Hstart [next]).
  change (xs ++ [settle; next]) with (xs ++ [settle] ++ [next]).
  rewrite app_assoc, visits_app, Hrun. simpl.
  rewrite visit_fields, ValueHistory_Get_cases. simpl.
  rewrite <- app_assoc. simpl. by destruct changed.
Qed.

End ValueHistoryFacts.

Lemma ValueHistory_reports_once_witness :
  (visits differs [pull_to_1; push_to_2; let_go; store_again] None).1
    = [false; false; true; true].
Proof.
  destruct (ValueHistory_reports_once differs [pull_to_1; push_to_2] let_go store_again)
    as (_ & _ & Hnext).
  - repeat constructor.
  - reflexivity.
  - exact Hnext.
Defined.

(** ** Guards inside guards *)

Section NestedGuardFacts.
Context {World Value : Type}.
Implicit Types (s : UndoStack World Value).

Lemma SetTrackingEnabled_twice (a b : bool) s :
  SetTrackingEnabled a (SetTrackingEnabled b s) = SetTrackingEnabled a s.
Proof. reflexivity. Qed.

(** X9. Guards nested in one another put the tracking flag back level
    by level: whatever the code in the innermost scope does to the
    stack, after the outermost guard is gone the flag is what it was
    before the first guard, and everything else is as the innermost
    code left it. The innermost code runs under the flag of the
    innermost guard. *)
Theorem nested_guards_restore (outer : list bool) (inner : bool)
    (body : UndoStack World Value -> UndoStack World Value) s :
  with_guards (outer ++ [inner]) body s =
    SetTrackingEnabled (IsTrackingEnabled s) (body (SetTrackingEnabled inner s)).
Proof.
  revert s. induction outer as [|track outer IH]; intros s; simpl.
  - reflexivity.
  - unfold UndoTrackGuard_delete. simpl. rewrite IH.
    by rewrite !SetTrackingEnabled_twice.
Qed.

End NestedGuardFacts.

(** ** More on continuous edits *)

Section ScopeFacts.
Context {World Value : Type} `{EqDecision Value}.
Context (hash : N) (onUndo : Setter World Value)
        (onRedo : option (Setter World Value)) (onModified : option (Modified World)).
Implicit Types (s : UndoStack World Value) (w : World) (p : Pass (Value:=Value)).
Implicit Types (a : UndoCustomAction World Value).

(** X10. With tracking off a widget pass has no defined result: the
    control is handed a reference that was bound to a member of the
    null action. With tracking on the pass has a result, and it touches
    nothing of the stack but the cache entry under its own hash and the
    end of the actions of the current frame: the stored groups, the
    cursor, the tracking flag and the entries of all other widgets stay
    as they are, and the actions already pending stay pending, followed
    by at most one new action. *)
Theorem run_pass_touches_own_entry_only p s w (other : N) :
  (trackingEnabled_ s = false ->
     run_pass hash onUndo onRedo onModified p (s, w) = None) /\
  (trackingEnabled_ s = true ->
     exists r,
       run_pass hash onUndo onRedo onModified p (s, w) = Some r /\
       stack_ r.1 = stack_ s /\
       index_ r.1 = index_ s /\
       trackingEnabled_ r.1 = true /\
       (other <> hash -> workingValueCache_ r.1 !! other = workingValueCache_ s !! other) /\
       (exists new, currentFrameActions_ r.1 = currentFrameActions_ s ++ new /\
                    (length new <= 1)%nat)).
Proof.
  split; intros Hon.
  - unfold run_pass, Track. simpl. by rewrite Hon.
  - assert (exists new : list (UndoAction World),
              currentFrameActions_ s = currentFrameActions_ s ++ new /\
              (length new <= 1)%nat) as Hnone.
    { exists []. split; [by rewrite app_nil_r | simpl; lia]. }
    rewrite (run_pass_tracked hash onUndo onRedo onModified p s w Hon).
    eexists. split; [reflexivity|].
    unfold UndoValueScope_delete, ValueCache_Detach. simpl.
    rewrite lookup_insert_eq.
    case_decide; [|destruct (pass_active p); [|destruct (modified_ _)]]; simpl;
      (split; [done|]); (split; [done|]); (split; [done|]);
      (split; [intros Hne; rewrite ?lookup_delete_ne, ?lookup_insert_ne by congruence; done|]);
      try exact Hnone.
    eexists [_]. split; [done | simpl; lia].
Qed.


(** X12. When the setters really set the value (reading the document
    after a setter gives the value that was set), a drag that ends in
    a recorded action leaves the last value in the document, Undo of
    the recorded action puts back the value the drag started from, and
    Redo puts the last value again. *)
Theorem recorded_drag_undoes_to_start (get : World -> Value)
    (drag : list Pass) (settle : Pass) s w :
  (forall v w', get (onUndo v w').2 = v) ->
  (forall f, onRedo = Some f -> forall v w', get (f v w').2 = v) ->
  trackingEnabled_ s = true ->
  workingValueCache_ s !! hash = None ->
  Forall (fun p => pass_active p = true) drag ->
  pass_active settle = false ->
  existsb pass_modified (drag ++ [settle]) = true ->
  let v0 := pass_current (default settle (head drag)) in
  let vf := pass_value settle in
  v0 <> vf ->
  exists fin,
    run_passes hash onUndo onRedo onModified (drag ++ [settle]) (s, w) = Some fin /\
    get fin.2 = vf /\
    exists action,
      last (currentFrameActions_ fin.1) = Some action /\
      get (Undo action fin.2).2 = v0 /\
      get (Redo action (Undo action fin.2).2).2 = vf.
Proof.
  intros Hset Hset' Hon Hfresh Hact Hsettle Hflag v0 vf Hne.
  destruct (run_passes_active hash onUndo onRedo onModified drag s w Hon Hact)
    as ([sm wm] & Hmid & _ & _ & Hon' & _ & Hc).
  cbn [fst snd] in *. rewrite Hfresh in Hc.
  rewrite run_passes_snoc, Hmid. cbn [mbind option_bind].
  rewrite run_pass_tracked by done. rewrite Hsettle, Hc.
  eexists. split; [reflexivity|].
  destruct (final_entry_fields onUndo onRedo onModified drag settle)
    as (Hi & Hcur & Hm & H1 & H2 & H3).
  fold v0 in Hi. fold vf in Hcur. rewrite Hflag in Hm.
  set (a := pass_entry onUndo onRedo onModified settle _) in *.
  unfold UndoValueScope_delete. cbn [scope_stack_ action_ hash_ negb orb].
  cbn [workingValueCache_ set_cache]. rewrite lookup_insert_eq.
  rewrite decide_False by (rewrite Hi, Hcur; done).
  unfold ValueCache_Detach. rewrite lookup_insert_eq, Hm. cbn [negb fst snd].
  assert (forall w', get (UndoCustomAction_Redo a w').2 = vf) as Hredo.
  { intros w'. unfold UndoCustomAction_Redo. rewrite H2, H1, Hcur.
    destruct onRedo as [f|]; [by apply (Hset' f) | apply Hset]. }
  assert (forall w', get (UndoCustomAction_Undo a w').2 = v0) as Hundo.
  { intros w'. unfold UndoCustomAction_Undo. rewrite H1, Hi. apply Hset. }
  split; [apply Hredo|].
  exists (as_action a). split.
  - cbn [currentFrameActions_ set_frame]. by rewrite last_snoc.
  - split; [apply Hundo | apply Hredo].
Qed.

End ScopeFacts.

Lemma run_pass_touches_own_entry_only_witness :
  exists r,
    run_pass 7%N set_value None None release_at_2 (busy_stack, 2) = Some r /\
    stack_ r.1 = stack_ busy_stack /\
    workingValueCache_ r.1 !! 8%N = workingValueCache_ busy_stack !! 8%N /\
    workingValueCache_ r.1 !! 7%N = None.
Proof.
  destruct (run_pass_touches_own_entry_only 7%N set_value None None
              release_at_2 busy_stack 2 8%N) as [_ Hframe].
  destruct (Hframe eq_refl) as (r & Hr & Hst & _ & _ & Hother & _).
  exists r. split; [exact Hr|]. split; [exact Hst|].
  split; [apply Hother; discriminate|].
  vm_compute in Hr. injection Hr as <-. reflexivity.
Defined.


Lemma recorded_drag_undoes_to_start_witness :
  exists fin,
    run_passes 7%N set_value None None (drag_0_to_3 ++ [settle_at_3]) (fresh_stack, 0)
      = Some fin /\
    fin.2 = 3.
Proof.
  destruct (recorded_drag_undoes_to_start 7%N set_value None None (fun w => w)
              drag_0_to_3 settle_at_3 fresh_stack 0) as (fin & Hfin & Hdoc & _).
  - reflexivity.
  - discriminate.
  - reflexivity.
  - reflexivity.
  - repeat constructor.
  - reflexivity.
  - reflexivity.
  - vm_compute. lia.
  - exists fin. split; [exact Hfin | exact Hdoc].
Defined.

(** ** Paths are positions *)

Section PathShift.
Context {Data : Type}.
Implicit Types (h : gmap N (UIElement Data)) (p : UIElementPath).

(** Two heaps that hold the same elements along a path resolve it to
    the same element. *)
Lemma GetUIElementByPath_same_along h h' p : forall (start : N) (last : N),
  GetUIElementByPath h start p = Element last ->
  (forall q r x, p = q ++ r -> r <> [] ->
     GetUIElementByPath h start q = Element x -> h' !! x = h !! x) ->
  GetUIElementByPath h' start p = Element last.
Proof.
  induction p as [|k p IH]; intros start last Hp Hsame; [done|].
  simpl in *.
  rewrite (Hsame [] (k :: p) start eq_refl ltac:(done) eq_refl).
  destruct (h !! start) as [e|] eqn:He; [|done].
  case_decide; [done|].
  destruct (children_ e !! N.to_nat k) as [c|] eqn:Hc; [|done].
  apply IH; [done|].
  intros q r x -> Hr Hq. apply (Hsame (k :: q) r x eq_refl Hr).
  simpl. rewrite He. rewrite decide_False by done. by rewrite Hc.
Qed.

(** X13. A path is a list of positions: once the child at position
    [i] is taken out of the children of an element, while the elements
    above it stay as they are, the stored path of every later child of
    that element leads to the child that came after it (or to null at
    the end), and the paths of the earlier children lead where they
    did. *)
Theorem later_siblings_shift h h' (root par : N) (e e' : UIElement Data) p (i j : N) :
  GetUIElementByPath h root p = Element par ->
  (forall q r x, p = q ++ r -> r <> [] ->
     GetUIElementByPath h root q = Element x -> h' !! x = h !! x) ->
  h !! par = Some e ->
  h' !! par = Some e' ->
  children_ e' = delete (N.to_nat i) (children_ e) ->
  ((i <= j)%N ->
     GetUIElementByPath h' root (p ++ [j]) = GetUIElementByPath h root (p ++ [(j + 1)%N])) /\
  ((j < i)%N ->
     GetUIElementByPath h' root (p ++ [j]) = GetUIElementByPath h root (p ++ [j])).
Proof.
  intros Hp Hsame He He' Hkids.
  pose proof (GetUIElementByPath_same_along h h' p root par Hp Hsame) as Hp'.
  rewrite !GetUIElementByPath_app, Hp, Hp'. simpl. rewrite He, He', Hkids.
  destruct (decide (N.to_nat i < length (children_ e))%nat) as [Hin|Hout].
  - rewrite length_delete by (by apply lookup_lt_is_Some).
    split; intros Hij.
    + rewrite list_lookup_delete_ge by lia.
      replace (N.to_nat (j + 1)) with (S (N.to_nat j)) by lia.
      repeat case_decide; try lia; done.
    + rewrite list_lookup_delete_lt by lia.
      repeat case_decide; try lia; done.
  - assert (delete (N.to_nat i) (children_ e) = children_ e) as ->.
    { clear -Hout. revert Hout. generalize (N.to_nat i).
      induction (children_ e) as [|c l IH]; intros [|n] Hn; simpl in *; try done; try lia.
      f_equal. apply IH. lia. }
    split; intros Hij.
    + repeat case_decide; try lia; done.
    + done.
Qed.

End PathShift.

Lemma later_siblings_shift_witness :
  GetUIElementByPath small_ui 1%N [1%N] = Element 3%N /\
  GetUIElementByPath small_ui_without_2 1%N [0%N] = Element 3%N.
Proof.
  split; [reflexivity|].
  destruct (later_siblings_shift small_ui small_ui_without_2 1%N 1%N
              {| parent_ := None; children_ := [2%N; 3%N]; data_ := tt |}
              {| parent_ := None; children_ := [3%N]; data_ := tt |}
              [] 0%N 0%N) as [Hshift _].
  - reflexivity.
  - intros q r x Hsplit Hr. destruct q; [simpl in Hsplit; by subst | discriminate].
  - reflexivity.
  - reflexivity.
  - reflexivity.
  - transitivity (GetUIElementByPath small_ui 1%N ([] ++ [(0 + 1)%N]));
      [apply Hshift; lia | reflexivity].
Defined.

(** ** The build script of the embree tasking library *)

(** X14. In a project that has no target of that name yet, the script
    goes through iff one of the three tasking options is set (with
    none set, no library is added and the first property command finds
    no target). When it goes through, the library has exactly one
    source, the scheduler of the first option that is set; the
    internal scheduler links nothing, the other two link embree-sys and
    embree-math privately and their own libraries publicly; and the
    archive is installed iff static libraries are not merged. *)
Theorem tasking_script_selects_one_scheduler (o : TaskingOptions) (proj : Project) :
  project_targets proj !! "embree-tasking"%string = None ->
  (tasking_CMakeLists o proj = None <-> selected_scheduler o = None) /\
  (forall proj', tasking_CMakeLists o proj = Some proj' ->
     exists t,
       project_targets proj' !! "embree-tasking"%string = Some t /\
       Some (target_sources t) = (fun source => [source]) <$> selected_scheduler o /\
       link_private t =
         (if TASKING_INTERNAL o then []
          else ["embree-sys"%string; "embree-math"%string]) /\
       link_public t =
         (if TASKING_INTERNAL o then []
          else if TASKING_TBB o then TBB_LIBRARIES o else PPL_LIBRARIES o) /\
       folder t = Some "ThirdParty/embree3/common"%string /\
       project_installs proj' =
         project_installs proj ++
         (if URHO3D_MERGE_STATIC_LIBS o then []
          else [("embree-tasking"%string, DEST_ARCHIVE_DIR o)])).
Proof.
  intros Hnew.
  unfold tasking_CMakeLists, selected_scheduler, ADD_LIBRARY,
    TARGET_LINK_LIBRARIES_PRIVATE, TARGET_LINK_LIBRARIES_PUBLIC,
    SET_PROPERTY_FOLDER, SET_PROPERTY_APPEND_INTERFACE_COMPILE_FLAGS,
    install_archive, on_target.
  destruct (TASKING_INTERNAL o), (TASKING_TBB o), (TASKING_PPL o),
    (URHO3D_MERGE_STATIC_LIBS o);
    repeat (rewrite ?Hnew, ?lookup_insert_eq; simpl);
    (split; [split; intros; done|]);
    intros proj' Hrun; try discriminate; injection Hrun as <-;
    (eexists; split; [apply lookup_insert_eq|]);
    simpl; rewrite ?app_nil_r; repeat split; reflexivity.
Qed.

Lemma tasking_script_selects_one_scheduler_witness :
  exists proj t,
    tasking_CMakeLists tbb_and_ppl empty_project = Some proj /\
    project_targets proj !! "embree-tasking"%string = Some t /\
    target_sources t = ["taskschedulertbb.cpp"%string].
Proof.
  destruct (tasking_script_selects_one_scheduler tbb_and_ppl empty_project) as [_ Hrun].
  - reflexivity.
  - destruct (tasking_CMakeLists tbb_and_ppl empty_project) as [proj|] eqn:Hproj;
      [|vm_compute in Hproj; discriminate].
    destruct (Hrun proj eq_refl) as (t & Ht & Hsrc & _).
    exists proj, t. split; [reflexivity|]. split; [exact Ht|].
    simpl in Hsrc. by injection Hsrc.
Defined.
